(** * Functional-dependency algebra of [relation_theory]

    A shallow embedding of [relation_theory/fd.py] and [relation_theory/rs.py]:
    attribute-set closure, canonical cover, candidate keys, the normal-form
    judges and the lossless-decomposition test.

    Modelling conventions.
    - An attribute is a Python [str]; it is a [string] here.
    - [set]/[frozenset] of attributes are [gset string].  Python compares
      sets by content, which is Leibniz equality on [gset].
    - The order in which Python iterates a set is unspecified.  Every
      function that iterates a set takes the enumeration [iter] as an
      argument, and theorems assume of it only that it lists the elements
      of the set, each one once ([IterOrder]).
    - [FDSet.fds] is a Python [list]; it is a [list FD], in list order.
    - [while] loops are run with fuel; for each of them it is proved that
      the fuel used by the model is enough. *)

From Stdlib Require Import Ascii.
From stdpp Require Import gmap strings list sorting.

Set Warnings "-clear-no-such-hyp".


(** ** Data model *)

(** [class FD]: two frozensets; [__eq__] compares both sides. *)
Record FD := mkFD { lhs : gset string; rhs : gset string }.

#[global] Instance FD_eq_dec : EqDecision FD.
Proof. solve_decision. Defined.

(** [class FDSet]: the list [fds]. *)
Record FDSet := mkFDSet { fds : list FD }.

(** [class RelationSchema]. *)
Record RelationSchema := mkRS { attributes : gset string; fd_set : FDSet }.

(** [frozenset(s)] for a [str] [s]: the set of its one-character strings. *)
Fixpoint str_chars (s : string) : list string :=
  match s with
  | EmptyString => []
  | String c s' => String c EmptyString :: str_chars s'
  end.

Definition frozenset_str (s : string) : gset string := list_to_set (str_chars s).

(** ** FDSet.closure *)

(** Body of the [for fd in self.fds] loop; the state is
    [(closure_set, changed)]. *)
Definition closure_step (st : gset string * bool) (fd : FD) : gset string * bool :=
  if bool_decide (lhs fd ⊆ st.1) && negb (bool_decide (rhs fd ⊆ st.1))
  then (st.1 ∪ rhs fd, true)
  else st.

(** One iteration of the [while changed] loop: [changed = False], then the
    [for] loop. *)
Definition closure_pass (F : FDSet) (cs : gset string) : gset string * bool :=
  foldl closure_step (cs, false) (fds F).

(** The [while changed] loop, with fuel. *)
Fixpoint closure_loop (fuel : nat) (F : FDSet) (cs : gset string) : option (gset string) :=
  match fuel with
  | O => None
  | S n =>
      let r := closure_pass F cs in
      if r.2 then closure_loop n F r.1 else Some r.1
  end.

(** [FDSet.closure].  [closure_loop_enough] below shows that the loop
    always finishes within this fuel, and that more fuel does not change
    the result. *)
Definition closure (F : FDSet) (X : gset string) : gset string :=
  default X (closure_loop (S (length (fds F))) F X).

(** [FDSet.implies] *)
Definition implies (F : FDSet) (fd : FD) : bool :=
  bool_decide (rhs fd ⊆ closure F (lhs fd)).

(** [FDSet.__eq__]: mutual implication. *)
Definition FDSet_eq (F G : FDSet) : bool :=
  forallb (implies G) (fds F) && forallb (implies F) (fds G).

(** ** Step 3 of canonical_cover: removal of redundant FDs *)

(** The inner [while i < len(unique_fds)] loop.  [kept] is
    [unique_fds[:i]], [rest] is [unique_fds[i:]]. *)
Fixpoint remove_scan (kept rest : list FD) (changed : bool) : list FD * bool :=
  match rest with
  | [] => (kept, changed)
  | fd :: rest' =>
      if implies (mkFDSet (kept ++ rest')) fd
      then remove_scan kept rest' true
      else remove_scan (kept ++ [fd]) rest' changed
  end.

(** The outer [while changed] loop, with fuel. *)
Fixpoint remove_loop (fuel : nat) (l : list FD) : option (list FD) :=
  match fuel with
  | O => None
  | S n =>
      let r := remove_scan [] l false in
      if r.2 then remove_loop n r.1 else Some r.1
  end.

Definition remove_redundant (l : list FD) : list FD :=
  default l (remove_loop (S (length l)) l).

(** The manual de-duplication loop ([if fd not in unique_fds]). *)
Definition dedup_fds (l : list FD) : list FD :=
  foldl (λ u fd, if bool_decide (fd ∈ u) then u else u ++ [fd]) [] l.

(** ** Normal-form messages *)

Definition str_leb (a b : string) : Prop := String.leb a b = true.

#[global] Instance str_leb_dec a b : Decision (str_leb a b).
Proof. unfold str_leb. apply _. Defined.

Section Model.

(** Iteration order of a Python set. *)
Variable iter : gset string → list string.

(** [''.join(sorted(s))] *)
Definition join_sorted (s : gset string) : string :=
  String.concat "" (merge_sort str_leb (iter s)).

(** *** FDSet.singleton_rhs *)
Definition singleton_rhs (F : FDSet) : FDSet :=
  mkFDSet
    (flat_map (λ fd, map (λ a, mkFD (lhs fd) (frozenset_str a)) (iter (rhs fd)))
              (fds F)).

(** *** FDSet.canonical_cover *)

(** Step 2 for one FD.  [next(iter(fd.rhs))] raises [StopIteration] on an
    empty right side: [None]. *)
Definition minimize_lhs (S : list FD) (fd : FD) : option FD :=
  match iter (rhs fd) with
  | [] => None
  | rhs_attr :: _ =>
      let minimal_lhs :=
        foldl (λ minimal_lhs a,
                 let candidate := minimal_lhs ∖ {[a]} in
                 if bool_decide (rhs_attr ∈ closure (mkFDSet S) candidate)
                 then minimal_lhs ∖ {[a]}
                 else minimal_lhs)
              (lhs fd) (iter (lhs fd)) in
      Some (mkFD minimal_lhs (frozenset_str rhs_attr))
  end.

Definition canonical_cover (F : FDSet) : option FDSet :=
  let singleton_fds := fds (singleton_rhs F) in
  minimized_fds ← mapM (minimize_lhs singleton_fds) singleton_fds;
  Some (mkFDSet (remove_redundant (dedup_fds minimized_fds))).

(** *** RelationSchema.candidate_keys *)

(** [itertools.combinations(l, r)], in its order. *)
Fixpoint combinations (l : list string) (r : nat) : list (list string) :=
  match r, l with
  | O, _ => [[]]
  | S _, [] => []
  | S r', x :: t => map (cons x) (combinations t r') ++ combinations t r
  end.

Definition all_left (F : FDSet) : gset string :=
  foldl (λ s fd, s ∪ lhs fd) ∅ (fds F).
Definition all_right (F : FDSet) : gset string :=
  foldl (λ s fd, s ∪ rhs fd) ∅ (fds F).

(** The test applied to one [candidate]: superkey, then minimality by
    single-attribute removal. *)
Definition is_key (rs : RelationSchema) (candidate : gset string) : bool :=
  bool_decide (closure (fd_set rs) candidate = attributes rs)
  && forallb (λ a, negb (bool_decide
                (closure (fd_set rs) (candidate ∖ {[a]}) = attributes rs)))
             (iter candidate).

Definition candidate_keys (rs : RelationSchema) : list (gset string) :=
  let U := attributes rs in
  let F := fd_set rs in
  let left := all_left F ∖ all_right F in
  let both := all_left F ∩ all_right F in
  let isolated := U ∖ (all_left F ∪ all_right F) in
  flat_map (λ r,
    flat_map (λ subset,
      let candidate := left ∪ list_to_set subset ∪ isolated in
      if is_key rs candidate then [candidate] else [])
      (combinations (iter both) r))
    (seq 0 (S (size both))).

(** *** Normal-form judges *)

Definition prime_attrs (keys : list (gset string)) : gset string :=
  foldl (λ s key, s ∪ key) ∅ keys.

Definition msg_2NF (fd : FD) (key : gset string) : string :=
  "Violation: " +:+ join_sorted (lhs fd) +:+ " -> " +:+ join_sorted (rhs fd)
    +:+ " is a partial dependency on candidate key " +:+ join_sorted key.
Definition msg_3NF (fd : FD) : string :=
  "Violation: " +:+ join_sorted (lhs fd) +:+ " -> " +:+ join_sorted (rhs fd)
    +:+ " is a transitive dependency".
Definition msg_BCNF (fd : FD) : string :=
  "Violation: " +:+ join_sorted (lhs fd) +:+ " -> " +:+ join_sorted (rhs fd)
    +:+ " violates BCNF".

(** [fd.lhs < key and not fd.rhs <= prime_attrs] *)
Definition partial_on (prime : gset string) (fd : FD) (key : gset string) : bool :=
  bool_decide (lhs fd ⊆ key) && negb (bool_decide (lhs fd = key))
  && negb (bool_decide (rhs fd ⊆ prime)).

(** [all(not fd.lhs >= key for key in candidate_keys)] *)
Definition not_superkey (keys : list (gset string)) (fd : FD) : bool :=
  forallb (λ key, negb (bool_decide (key ⊆ lhs fd))) keys.

(** The inner [for key in candidate_keys] loop, left at the first match. *)
Fixpoint first_partial (prime : gset string) (fd : FD) (keys : list (gset string))
  : list string :=
  match keys with
  | [] => []
  | key :: keys' =>
      if partial_on prime fd key then [msg_2NF fd key]
      else first_partial prime fd keys'
  end.

Definition judge_2NF (rs : RelationSchema) (keys : list (gset string)) : list string :=
  let prime := prime_attrs keys in
  flat_map (λ fd, first_partial prime fd keys) (fds (singleton_rhs (fd_set rs))).

Definition judge_3NF (rs : RelationSchema) (keys : list (gset string)) : list string :=
  let prime := prime_attrs keys in
  flat_map (λ fd, if not_superkey keys fd && negb (bool_decide (rhs fd ⊆ prime))
                  then [msg_3NF fd] else [])
           (fds (singleton_rhs (fd_set rs))).

Definition judge_BCNF (rs : RelationSchema) (keys : list (gset string)) : list string :=
  flat_map (λ fd, if not_superkey keys fd then [msg_BCNF fd] else [])
           (fds (singleton_rhs (fd_set rs))).

(** A Python list is truthy when it is not empty. *)
Definition truthy {A} (l : list A) : bool :=
  match l with [] => false | _ => true end.

Definition judge_NF (rs : RelationSchema) : string * list string :=
  let keys := candidate_keys rs in
  let violations_2NF := judge_2NF rs keys in
  if truthy violations_2NF then ("1NF", violations_2NF) else
  let violations_3NF := judge_3NF rs keys in
  if truthy violations_3NF then ("2NF", violations_3NF) else
  let violations_BCNF := judge_BCNF rs keys in
  if truthy violations_BCNF then ("3NF", violations_BCNF) else
  ("BCNF", []).

(** *** RelationSchema.is_lossless_decomposition *)
Definition is_lossless_decomposition (rs : RelationSchema)
    (sub_schemas : list (gset string)) : bool :=
  let keys := candidate_keys rs in
  existsb (λ sub_schema, existsb (λ key, bool_decide (key ⊆ sub_schema)) keys)
          sub_schemas.

End Model.

(** What is assumed of a set's iteration order. *)
Definition IterOrder (iter : gset string → list string) : Prop :=
  ∀ s, iter s ≡ₚ elements s.

Definition A_B := mkFD {["A"]} {["B"]}.
Definition BC_D := mkFD {["B"; "C"]} {["D"]}.
Definition D_A := mkFD {["D"]} {["A"]}.
Definition scenario_B : RelationSchema :=
  mkRS {["A"; "B"; "C"; "D"]} (mkFDSet [A_B; BC_D; D_A]).


(** ** Specification vocabulary *)

(** [Y] is closed under the FDs of [F]. *)
Definition closed (F : FDSet) (Y : gset string) : Prop :=
  ∀ fd, fd ∈ fds F → lhs fd ⊆ Y → rhs fd ⊆ Y.

(** Number of FDs whose right side is not yet inside [cs]: the measure
    that bounds the number of passes. *)
Definition pending (F : FDSet) (cs : gset string) : nat :=
  length (filter (λ fd, rhs fd ⊈ cs) (fds F)).

(** [F] implies every FD of [G]. *)
Definition entails (F G : FDSet) : Prop :=
  ∀ fd, fd ∈ fds G → rhs fd ⊆ closure F (lhs fd).

(** Mutual implication, the relation decided by [FDSet.__eq__]. *)
Definition equivalent (F G : FDSet) : Prop := entails F G ∧ entails G F.

(** [F] without the FDs whose right side is empty. *)
Definition drop_empty_rhs (F : FDSet) : FDSet :=
  mkFDSet (filter (λ fd, rhs fd ≠ ∅) (fds F)).

(** The attribute is a one-character string. *)
Definition one_char (a : string) : Prop := String.length a = 1.

(** ** Tactics *)

(** Settles a closed decidable proposition by evaluation. *)
Ltac by_compute :=
  lazymatch goal with
  | |- ?P => apply (bool_decide_unpack P); vm_compute; exact I
  end.

(** ** Scenario inputs *)

(** An FD set with the two-character attribute "BB" on a right side. *)
Definition F_multi : FDSet := mkFDSet [mkFD {["A"]} {["BB"]}].

(** ** The default argument of [FDSet.__init__]

    [def __init__(self, fds: list[FD] = [])] followed by [self.fds = fds].
    Python lists are objects in a store and [self.fds] holds a reference;
    the default [[]] is evaluated once, when the [def] is executed. *)
Module Aliasing.

Definition addr := nat.

(** The store: the list objects allocated so far. *)
Record store := mkStore { cells : gmap addr (list FD); next : addr }.

Definition empty_store : store := mkStore ∅ 0.

(** Store-passing computations; [None] is a dangling reference. *)
Definition M (A : Type) : Type := store → option (A * store).

#[local] Instance M_ret : MRet M := λ A x σ, Some (x, σ).
#[local] Instance M_bind : MBind M := λ A B f m σ,
  match m σ with Some (x, σ') => f x σ' | None => None end.

(** A list display [[...]]: a new object. *)
Definition new_list (l : list FD) : M addr :=
  λ σ, Some (next σ, mkStore (<[next σ := l]> (cells σ)) (S (next σ))).

(** [r.append(fd)] *)
Definition list_append (r : addr) (fd : FD) : M unit :=
  λ σ, match cells σ !! r with
       | Some l => Some (tt, mkStore (<[r := l ++ [fd]]> (cells σ)) (next σ))
       | None => None
       end.

(** Reading the contents of the list at [r]. *)
Definition list_get (r : addr) : M (list FD) :=
  λ σ, match cells σ !! r with Some l => Some (l, σ) | None => None end.

(** What executing the [def __init__] leaves behind: the function
    object with its default value. *)
Record FDSet_class := mkClass { default_fds : addr }.

Definition define_FDSet : M FDSet_class :=
  d ← new_list []; mret (mkClass d).

(** An instance: [self.fds] is a reference. *)
Record FDSet_obj := mkObj { fds_ref : addr }.

(** [FDSet(fds)] and [FDSet()]: [self.fds = fds], no copy. *)
Definition FDSet_new (cls : FDSet_class) (arg : option addr) : M FDSet_obj :=
  mret (mkObj (default (default_fds cls) arg)).

(** [a = FDSet(); b = FDSet(); a.fds.append(fd)], then [b.fds]. *)
Definition two_defaults (fd : FD) : M (FDSet_obj * FDSet_obj * list FD) :=
  cls ← define_FDSet;
  a ← FDSet_new cls None;
  b ← FDSet_new cls None;
  list_append (fds_ref a) fd;;
  l ← list_get (fds_ref b);
  mret (a, b, l).

(** The same with [FDSet([])] twice. *)
Definition two_displays (fd : FD) : M (FDSet_obj * FDSet_obj * list FD) :=
  cls ← define_FDSet;
  la ← new_list [];
  a ← FDSet_new cls (Some la);
  lb ← new_list [];
  b ← FDSet_new cls (Some lb);
  list_append (fds_ref a) fd;;
  l ← list_get (fds_ref b);
  mret (a, b, l).

(** [len(FDSet().fds)] after [FDSet().fds.append(fd)]. *)
Definition len_after_append (fd : FD) : M nat :=
  cls ← define_FDSet;
  a ← FDSet_new cls None;
  list_append (fds_ref a) fd;;
  c ← FDSet_new cls None;
  l ← list_get (fds_ref c);
  mret (length l).

Definition result {A} (m : M A) : option A := fst <$> m empty_store.

End Aliasing.

(** ** RelationSchema.from_str

    A Python [str] is a [string], one [ascii] per character (code points
    below 256). *)

(** [c.isspace()] on these code points: tab to carriage return, the
    separators 28 to 31, space, NEL and the no-break space. *)
Definition is_space (c : Ascii.ascii) : bool :=
  let n := Ascii.nat_of_ascii c in
  (9 <=? n) && (n <=? 13) || (28 <=? n) && (n <=? 32) || (n =? 133) || (n =? 160).

(** [s.lstrip()], [s.rstrip()], [s.strip()] *)
Fixpoint lstrip (s : string) : string :=
  match s with
  | EmptyString => EmptyString
  | String c s' => if is_space c then lstrip s' else s
  end.

Fixpoint rstrip (s : string) : string :=
  match s with
  | EmptyString => EmptyString
  | String c s' =>
      match rstrip s' with
      | EmptyString => if is_space c then EmptyString else String c EmptyString
      | r => String c r
      end
  end.

Definition strip (s : string) : string := rstrip (lstrip s).

(** The text after a leading "->", if [s] starts with one. *)
Definition arrow_rest (s : string) : option string :=
  match s with
  | String c (String d r) =>
      if Ascii.eqb c "-" && Ascii.eqb d ">" then Some r else None
  | _ => None
  end.

(** [s.split("->", 1)] when ["->" in s], [None] when not: the parts
    before and after the first arrow. *)
Fixpoint split_arrow (s : string) : option (string * string) :=
  match arrow_rest s with
  | Some r => Some (EmptyString, r)
  | None =>
      match s with
      | EmptyString => None
      | String c s' =>
          match split_arrow s' with
          | Some (l, r) => Some (String c l, r)
          | None => None
          end
      end
  end.

(** A returned value or a raised [ValueError] with its message. *)
Inductive result (A : Type) : Type :=
  | Ok (x : A)
  | ValueError (msg : string).
Arguments Ok {A} x.
Arguments ValueError {A} msg.

(** The body of the [for fd_str in fd_list] loop. *)
Definition parse_fd (fd_str : string) : result FD :=
  match split_arrow fd_str with
  | None => ValueError ("Invalid FD format (missing '->'): '" +:+ fd_str +:+ "'")
  | Some (l, r) =>
      let lhs := frozenset_str (strip l) in
      let rhs := frozenset_str (strip r) in
      if bool_decide (lhs = ∅)
      then ValueError ("Empty left-hand side in FD: '" +:+ fd_str +:+ "'")
      else Ok (mkFD lhs rhs)
  end.

(** The loop; [fds] is the list built so far. *)
Fixpoint parse_fds (fd_list : list string) (fds : list FD) : result (list FD) :=
  match fd_list with
  | [] => Ok fds
  | fd_str :: rest =>
      match parse_fd fd_str with
      | Ok fd => parse_fds rest (fds ++ [fd])
      | ValueError msg => ValueError msg
      end
  end.

Definition from_str (attributes : string) (fd_list : list string)
  : result RelationSchema :=
  let attr_set := frozenset_str attributes in
  match parse_fds fd_list [] with
  | Ok fds => Ok (mkRS attr_set (mkFDSet fds))
  | ValueError msg => ValueError msg
  end.


(** Only whitespace. *)
Fixpoint all_space (s : string) : bool :=
  match s with
  | EmptyString => true
  | String c s' => is_space c && all_space s'
  end.

(** The FD of a successful parse. *)
Definition fd_of (r : result FD) : option FD :=
  match r with Ok fd => Some fd | ValueError _ => None end.

(** ** Further inputs *)

(** {A->B, B->C, A->C}: the last FD is redundant. *)
Definition B_C := mkFD {["B"]} {["C"]}.
Definition F_redundant : FDSet := mkFDSet [A_B; B_C; mkFD {["A"]} {["C"]}].
Definition cover_redundant : FDSet := mkFDSet [A_B; B_C].

(** Attributes {A,B} with the FD A->C, which leaves the universe. *)
Definition rs_open : RelationSchema :=
  mkRS {["A"; "B"]} (mkFDSet [mkFD {["A"]} {["C"]}]).

(** Settles [IterOrder elements]. *)
Ltac iter_elements := intros ?; reflexivity.

(** Settles "every right-side attribute is one character" on a closed
    FD list. *)
Ltac one_char_compute l :=
  let fd := fresh in let a := fresh in let Hfd := fresh in
  intros fd a Hfd;
  exact (proj1 (Forall_forall (λ fd, set_Forall one_char (rhs fd)) l)
               ltac:(by_compute) fd Hfd a).

(** Settles the invariant of the data model on a closed schema. *)
Ltac wf_compute := apply Forall_forall; by_compute.

(** * Proofs *)

(** ** The closure loop *)

Lemma closure_step_incl st fd : st.1 ⊆ (closure_step st fd).1.
Proof. unfold closure_step. case_match; simpl; set_solver. Qed.

Lemma closure_fold_incl l st : st.1 ⊆ (foldl closure_step st l).1.
Proof.
  revert st. induction l as [|fd l IH]; intros st; simpl; [done|].
  etrans; [apply (closure_step_incl st fd)|apply IH].
Qed.

Lemma closure_step_fired st fd :
  (closure_step st fd).2 = true →
  st.2 = true ∨ (rhs fd ⊈ st.1 ∧ rhs fd ⊆ (closure_step st fd).1).
Proof.
  unfold closure_step. case_match eqn:E; simpl; [|by left].
  intros _. right. apply andb_true_iff in E as [_ E].
  apply negb_true_iff, bool_decide_eq_false in E. split; [done|set_solver].
Qed.

Lemma closure_fold_fired l st :
  (foldl closure_step st l).2 = true →
  st.2 = true ∨ ∃ fd, fd ∈ l ∧ rhs fd ⊈ st.1 ∧ rhs fd ⊆ (foldl closure_step st l).1.
Proof.
  revert st. induction l as [|fd l IH]; intros st; simpl; [by left|].
  intros H. destruct (IH _ H) as [H1|(fd' & Hin & Hn & Hs)].
  - destruct (closure_step_fired _ _ H1) as [?|[Hn Hs]]; [by left|].
    right. exists fd. split_and!; [apply list_elem_of_here|done|].
    etrans; [exact Hs|apply closure_fold_incl].
  - right. exists fd'. split_and!; [by apply list_elem_of_further| |done].
    intros Hsub. apply Hn. etrans; [exact Hsub|apply closure_step_incl].
Qed.

Lemma closure_fold_quiet l st :
  (foldl closure_step st l).2 = false →
  st.2 = false ∧ (foldl closure_step st l).1 = st.1 ∧
  ∀ fd, fd ∈ l → lhs fd ⊆ st.1 → rhs fd ⊆ st.1.
Proof.
  revert st. induction l as [|fd l IH]; intros st; simpl.
  - intros ->. split_and!; [done..|]. intros fd Hfd. inversion Hfd.
  - intros H. destruct (IH _ H) as (H2 & H1 & Hall).
    unfold closure_step in *. case_match eqn:E; simpl in *; [done|].
    split_and!; [done..|].
    intros fd' Hin Hl. apply elem_of_cons in Hin as [->|Hin]; [|by apply Hall].
    apply andb_false_iff in E as [E|E].
    + by apply bool_decide_eq_false in E.
    + by apply negb_false_iff, bool_decide_eq_true in E.
Qed.

Lemma closure_fold_least F Y l st :
  closed F Y → l ⊆ fds F → st.1 ⊆ Y → (foldl closure_step st l).1 ⊆ Y.
Proof.
  intros HY. revert st. induction l as [|fd l IH]; intros st Hl Hst; simpl; [done|].
  apply IH; [set_solver|].
  unfold closure_step. case_match eqn:E; simpl; [|done].
  apply andb_true_iff in E as [E _]. apply bool_decide_eq_true in E.
  apply union_subseteq. split; [done|].
  apply HY; [apply Hl, list_elem_of_here|]. by etrans.
Qed.

Lemma filter_length_lt {A} (P Q : A → Prop)
    {dP : ∀ x, Decision (P x)} {dQ : ∀ x, Decision (Q x)} (l : list A) :
  (∀ x, x ∈ l → Q x → P x) →
  (∃ x, x ∈ l ∧ P x ∧ ¬ Q x) →
  length (filter Q l) < length (filter P l).
Proof.
  induction l as [|a l IH]; intros Himp (x & Hin & HP & HQ).
  { inversion Hin. }
  assert (Hle : ∀ l' : list A, (∀ y, y ∈ l' → Q y → P y) →
                 length (filter Q l') ≤ length (filter P l')).
  { clear. induction l' as [|b l' IH']; intros H; [done|].
    rewrite !filter_cons.
    assert (length (filter Q l') ≤ length (filter P l')) by (apply IH'; set_solver).
    destruct (decide (Q b)) as [HQb|]; destruct (decide (P b)) as [|HPb]; simpl; try lia.
    exfalso. apply HPb, H; [apply list_elem_of_here|done]. }
  rewrite !filter_cons.
  apply elem_of_cons in Hin as [->|Hin].
  - assert (length (filter Q l) ≤ length (filter P l)) by (apply Hle; set_solver).
    destruct (decide (Q a)); [done|]. destruct (decide (P a)); [|done]. simpl. lia.
  - assert (length (filter Q l) < length (filter P l)).
    { apply IH; [set_solver|]. by exists x. }
    destruct (decide (Q a)) as [HQa|]; destruct (decide (P a)) as [|HPa]; simpl; try lia.
    exfalso. apply HPa, Himp; [apply list_elem_of_here|done].
Qed.

Lemma closure_pass_pending F cs :
  (closure_pass F cs).2 = true → pending F (closure_pass F cs).1 < pending F cs.
Proof.
  intros H. unfold pending. apply filter_length_lt.
  - intros fd _ Hn Hs. apply Hn. etrans; [exact Hs|].
    apply (closure_fold_incl (fds F) (cs, false)).
  - destruct (closure_fold_fired _ _ H) as [?|(fd & Hin & Hn & Hs)]; [done|].
    exists fd. split_and!; [done..|]. by intros Hc.
Qed.

Lemma pending_le F cs : pending F cs ≤ length (fds F).
Proof. apply length_filter. Qed.

(** The loop stops as soon as the fuel exceeds the measure, and the result
    does not depend on the fuel beyond that. *)
Lemma closure_loop_fuel F n m cs :
  pending F cs < n → pending F cs < m →
  is_Some (closure_loop n F cs) ∧ closure_loop n F cs = closure_loop m F cs.
Proof.
  revert m cs. induction n as [|n IH]; intros m cs Hn Hm; [lia|].
  destruct m as [|m]; [lia|]. simpl.
  destruct (closure_pass F cs).2 eqn:E; [|by eauto].
  apply closure_pass_pending in E. apply IH; lia.
Qed.

Lemma closure_loop_spec F n cs r :
  closure_loop n F cs = Some r →
  cs ⊆ r ∧ closed F r ∧ ∀ Y, closed F Y → cs ⊆ Y → r ⊆ Y.
Proof.
  revert cs. induction n as [|n IH]; intros cs; simpl; [done|].
  destruct (closure_pass F cs).2 eqn:E.
  - intros H. destruct (IH _ H) as (H1 & H2 & H3).
    pose proof (closure_fold_incl (fds F) (cs, false)) as Hi. simpl in Hi.
    split_and!; [by etrans|done|].
    intros Y HY Hcs. apply H3; [done|].
    by apply (closure_fold_least F Y (fds F) (cs, false)).
  - intros [= <-]. destruct (closure_fold_quiet _ _ E) as (_ & Heq & Hall).
    unfold closure_pass. rewrite Heq. simpl in *.
    split_and!; [done| |by auto]. intros fd. apply Hall.
Qed.

(** The [while] loop of [closure] terminates: any fuel above the number of
    FDs yields the value of [closure]. *)
Lemma closure_loop_enough F X n :
  length (fds F) < n → closure_loop n F X = Some (closure F X).
Proof.
  intros Hn. pose proof (pending_le F X).
  destruct (closure_loop_fuel F (S (length (fds F))) n X) as [[r Hr] Heq]; [lia..|].
  unfold closure. rewrite <- Heq, Hr. done.
Qed.

Lemma closure_extensive F X : X ⊆ closure F X.
Proof.
  pose proof (closure_loop_enough F X (S (length (fds F)))) as H.
  by apply closure_loop_spec in H as (? & _); [|lia].
Qed.

Lemma closure_closed F X : closed F (closure F X).
Proof.
  pose proof (closure_loop_enough F X (S (length (fds F)))) as H.
  by apply closure_loop_spec in H as (_ & ? & _); [|lia].
Qed.

Lemma closure_least F X Y : closed F Y → X ⊆ Y → closure F X ⊆ Y.
Proof.
  pose proof (closure_loop_enough F X (S (length (fds F)))) as H.
  apply closure_loop_spec in H as (_ & _ & H); [|lia]. apply H.
Qed.

Lemma closure_mono F X Y : X ⊆ Y → closure F X ⊆ closure F Y.
Proof.
  intros H. apply closure_least; [apply closure_closed|].
  etrans; [exact H|apply closure_extensive].
Qed.

Lemma closure_of_closed F Y : closed F Y → closure F Y = Y.
Proof.
  intros H. apply set_eq. intros x. split.
  - apply closure_least; done.
  - apply closure_extensive.
Qed.

Lemma closure_idem F X : closure F (closure F X) = closure F X.
Proof. apply closure_of_closed, closure_closed. Qed.

(** C4: [X ⊆ closure_F(X)] and [closure_F(closure_F(X)) = closure_F(X)],
    for every FD set [F] and attribute set [X]; the loop computing either
    closure terminates. *)
Theorem closure_reflexive_idempotent (F : FDSet) (X : gset string) :
  (∀ n, length (fds F) < n → closure_loop n F X = Some (closure F X)) ∧
  X ⊆ closure F X ∧
  closure F (closure F X) = closure F X.
Proof.
  split_and!.
  - intros n. apply closure_loop_enough.
  - apply closure_extensive.
  - apply closure_idem.
Qed.

(** C8: an FD with an empty left side does not break [closure]: the loop
    returns a value for every [X], and the right side [R] of such an FD is
    part of it. *)
Theorem closure_empty_lhs (F : FDSet) (R X : gset string) :
  mkFD ∅ R ∈ fds F →
  closure_loop (S (length (fds F))) F X = Some (closure F X) ∧
  R ⊆ closure F X.
Proof.
  intros Hin. split.
  - apply closure_loop_enough. lia.
  - apply (closure_closed F X _ Hin). simpl. set_solver.
Qed.

(** ** Lists *)

Lemma elem_of_flat_map {A B} (f : A → list B) (l : list A) (y : B) :
  y ∈ flat_map f l ↔ ∃ x, x ∈ l ∧ y ∈ f x.
Proof.
  rewrite list_elem_of_In, in_flat_map. by setoid_rewrite list_elem_of_In.
Qed.

Lemma elem_of_map {A B} (f : A → B) (l : list A) (y : B) :
  y ∈ map f l ↔ ∃ x, x ∈ l ∧ y = f x.
Proof.
  rewrite list_elem_of_In, in_map_iff. setoid_rewrite list_elem_of_In.
  naive_solver.
Qed.

Lemma NoDup_flat_map {A B} (f : A → list B) (l : list A) :
  (∀ x1 x2 y, x1 ∈ l → x2 ∈ l → y ∈ f x1 → y ∈ f x2 → x1 = x2) →
  (∀ x, x ∈ l → NoDup (f x)) → NoDup l → NoDup (flat_map f l).
Proof. apply (NoDup_bind f l). Qed.

Lemma filter_ext_in {A} (P Q : A → Prop)
    {dP : ∀ x, Decision (P x)} {dQ : ∀ x, Decision (Q x)} (l : list A) :
  (∀ x, x ∈ l → P x ↔ Q x) → filter P l = filter Q l.
Proof.
  induction l as [|a l IH]; intros H; [done|].
  rewrite !filter_cons, IH by (intros; apply H; by apply list_elem_of_further).
  pose proof (H a (list_elem_of_here _ _)).
  destruct (decide (P a)), (decide (Q a)); naive_solver.
Qed.

(** A sublist of a duplicate-free list is determined by its elements. *)
Lemma sublist_as_filter {A} `{EqDecision A} (s l : list A) :
  NoDup l → s `sublist_of` l → s = filter (λ x, x ∈ s) l.
Proof.
  intros Hnd Hsub. induction Hsub as [|x s l Hsub IH|x s l Hsub IH].
  - done.
  - apply NoDup_cons in Hnd as [Hx Hnd].
    rewrite filter_cons, decide_True by apply list_elem_of_here. f_equal.
    rewrite (IH Hnd) at 1. apply filter_ext_in. intros y Hy.
    rewrite elem_of_cons. split; [by right|]. intros [->|?]; done.
  - apply NoDup_cons in Hnd as [Hx Hnd].
    rewrite filter_cons, decide_False; [by apply IH|].
    intros Hxs. apply Hx. by eapply elem_of_sublist.
Qed.

Lemma sublist_same_elems {A} `{EqDecision A} (s1 s2 l : list A) :
  NoDup l → s1 `sublist_of` l → s2 `sublist_of` l →
  (∀ x, x ∈ s1 ↔ x ∈ s2) → s1 = s2.
Proof.
  intros Hnd H1 H2 Heq.
  rewrite (sublist_as_filter s1 l), (sublist_as_filter s2 l) by done.
  by apply list_filter_iff.
Qed.

(** ** itertools.combinations *)

Lemma combinations_sublist l r s :
  s ∈ combinations l r → s `sublist_of` l ∧ length s = r.
Proof.
  revert r s. induction l as [|x t IH]; intros [|r] s; simpl.
  - intros ->%list_elem_of_singleton. done.
  - intros H. inversion H.
  - intros ->%list_elem_of_singleton. split; [apply sublist_nil_l|done].
  - rewrite elem_of_app, elem_of_map. intros [(s' & Hs' & ->)|Hs].
    + destruct (IH _ _ Hs') as [? ?]. split; [by apply sublist_skip|simpl; lia].
    + destruct (IH _ _ Hs) as [? ?]. split; [by apply sublist_cons|done].
Qed.

Lemma combinations_complete l s :
  s `sublist_of` l → s ∈ combinations l (length s).
Proof.
  induction 1 as [|x s l Hsub IH|x s l Hsub IH]; simpl.
  - apply list_elem_of_here.
  - rewrite elem_of_app, elem_of_map. left. by exists s.
  - destruct s as [|y s]; simpl in *; [apply list_elem_of_here|].
    rewrite elem_of_app. by right.
Qed.

Lemma combinations_NoDup l r : NoDup l → NoDup (combinations l r).
Proof.
  revert r. induction l as [|x t IH]; intros [|r] Hnd; simpl.
  - apply NoDup_singleton.
  - apply NoDup_nil_2.
  - apply NoDup_singleton.
  - apply NoDup_cons in Hnd as [Hx Hnd]. apply NoDup_app. split_and!.
    + change (map (cons x) (combinations t r)) with (cons x <$> combinations t r).
      apply NoDup_fmap_2; [|by apply IH]. by intros ?? [=].
    + intros s (s' & _ & ->)%elem_of_map [Hs _]%combinations_sublist.
      apply Hx. eapply elem_of_sublist; [apply list_elem_of_here|done].
    + by apply IH.
Qed.

(** ** Candidate keys *)

Lemma elem_of_foldl_union {A} (f : A → gset string) (l : list A) acc x :
  x ∈ foldl (λ s a, s ∪ f a) acc l ↔ x ∈ acc ∨ ∃ a, a ∈ l ∧ x ∈ f a.
Proof.
  revert acc. induction l as [|a l IH]; intros acc; simpl.
  - split; [by left|]. intros [?|(a & Ha & _)]; [done|inversion Ha].
  - rewrite IH, elem_of_union. setoid_rewrite elem_of_cons. naive_solver.
Qed.

Lemma elem_of_all_left F x : x ∈ all_left F ↔ ∃ fd, fd ∈ fds F ∧ x ∈ lhs fd.
Proof. unfold all_left. rewrite elem_of_foldl_union. set_solver. Qed.

Lemma elem_of_all_right F x : x ∈ all_right F ↔ ∃ fd, fd ∈ fds F ∧ x ∈ rhs fd.
Proof. unfold all_right. rewrite elem_of_foldl_union. set_solver. Qed.

Lemma elem_of_prime_attrs keys x :
  x ∈ prime_attrs keys ↔ ∃ key, key ∈ keys ∧ x ∈ key.
Proof. unfold prime_attrs. rewrite (elem_of_foldl_union id). set_solver. Qed.

(** An attribute that is on no right side is derived only from itself. *)
Lemma closure_not_derivable F K x :
  x ∉ all_right F → x ∉ K → x ∉ closure F K.
Proof.
  intros Hr HK Hx.
  assert (closure F K ⊆ closure F K ∖ {[x]}) as Hsub; [|set_solver].
  apply closure_least.
  - intros fd Hfd Hl. pose proof (closure_closed F K fd Hfd) as Hc.
    assert (x ∉ rhs fd) by (rewrite elem_of_all_right in Hr; naive_solver).
    set_solver.
  - pose proof (closure_extensive F K). set_solver.
Qed.

(** An attribute that is on no left side does not help to derive others. *)
Lemma closure_drop_unused F K x :
  x ∉ all_left F → closure F K ∖ {[x]} ⊆ closure F (K ∖ {[x]}).
Proof.
  intros Hl.
  assert (closure F K ⊆ closure F (K ∖ {[x]}) ∪ {[x]}) as Hsub; [|set_solver].
  apply closure_least.
  - intros fd Hfd Hsub.
    assert (x ∉ lhs fd) by (rewrite elem_of_all_left in Hl; naive_solver).
    pose proof (closure_closed F (K ∖ {[x]}) fd Hfd). set_solver.
  - pose proof (closure_extensive F (K ∖ {[x]})).
    intros y Hy. destruct (decide (y = x)); set_solver.
Qed.

Section Keys.

Variable iter : gset string → list string.
Hypothesis Hiter : IterOrder iter.

Lemma iter_elem s x : x ∈ iter s ↔ x ∈ s.
Proof. by rewrite (Hiter s), elem_of_elements. Qed.

Lemma iter_NoDup s : NoDup (iter s).
Proof. rewrite (Hiter s). apply NoDup_elements. Qed.

Lemma iter_length s : length (iter s) = size s.
Proof. by rewrite (Hiter s). Qed.

Lemma iter_empty : iter ∅ = [].
Proof. apply Permutation_nil_r. by rewrite (Hiter ∅), elements_empty. Qed.

Lemma iter_singleton x : iter {[x]} = [x].
Proof. apply Permutation_singleton_r. by rewrite (Hiter {[x]}), elements_singleton. Qed.

Lemma iter_nil_inv s : iter s = [] → s = ∅.
Proof.
  intros H. apply set_eq. intros x. rewrite <- iter_elem, H. set_solver.
Qed.

Lemma is_key_spec rs K :
  is_key iter rs K = true ↔
  closure (fd_set rs) K = attributes rs ∧
  ∀ a, a ∈ K → closure (fd_set rs) (K ∖ {[a]}) ≠ attributes rs.
Proof.
  unfold is_key. rewrite andb_true_iff, bool_decide_eq_true, forallb_forall.
  apply and_iff_compat_l. split.
  - intros H a Ha. apply iter_elem, list_elem_of_In, H in Ha.
    by apply negb_true_iff, bool_decide_eq_false in Ha.
  - intros H a Ha. apply negb_true_iff, bool_decide_eq_false, H.
    by apply iter_elem, list_elem_of_In.
Qed.

(** Shape of the entries of the result. *)
Lemma elem_of_candidate_keys rs K :
  K ∈ candidate_keys iter rs ↔
  ∃ subset,
    subset `sublist_of` iter (all_left (fd_set rs) ∩ all_right (fd_set rs)) ∧
    K = (all_left (fd_set rs) ∖ all_right (fd_set rs)) ∪ list_to_set subset
          ∪ (attributes rs ∖ (all_left (fd_set rs) ∪ all_right (fd_set rs))) ∧
    is_key iter rs K = true.
Proof.
  unfold candidate_keys. rewrite elem_of_flat_map. split.
  - intros (r & _ & (subset & Hsub & HK)%elem_of_flat_map).
    apply combinations_sublist in Hsub as [Hsub _].
    exists subset. cbv zeta in HK. case_match eqn:E; [|inversion HK].
    apply list_elem_of_singleton in HK as ->. done.
  - intros (subset & Hsub & -> & Hkey). exists (length subset). split.
    + apply elem_of_seq. apply sublist_length in Hsub.
    rewrite iter_length in Hsub. lia.
    + apply elem_of_flat_map. exists subset.
      split; [by apply combinations_complete|].
      cbv zeta. rewrite Hkey. apply list_elem_of_here.
Qed.

(** Soundness of the search. *)
Lemma candidate_keys_sound rs K :
  K ∈ candidate_keys iter rs →
  closure (fd_set rs) K = attributes rs ∧
  ∀ a, a ∈ K → closure (fd_set rs) (K ∖ {[a]}) ≠ attributes rs.
Proof. intros (? & _ & _ & H)%elem_of_candidate_keys. by apply is_key_spec. Qed.

Lemma candidate_keys_left rs K :
  K ∈ candidate_keys iter rs →
  all_left (fd_set rs) ∖ all_right (fd_set rs) ⊆ K.
Proof. intros (? & _ & -> & _)%elem_of_candidate_keys. set_solver. Qed.

Section Complete.

Variable rs : RelationSchema.
Let U := attributes rs.
Let F := fd_set rs.

(** The invariant of the data model: the FDs mention attributes of
    the universe only. *)
Hypothesis Hwf : ∀ fd, fd ∈ fds F → lhs fd ⊆ U ∧ rhs fd ⊆ U.

Variable K : gset string.
Hypothesis HKU : K ⊆ U.
Hypothesis Hsuper : closure F K = U.
Hypothesis Hmin : ∀ a, a ∈ K → closure F (K ∖ {[a]}) ≠ U.

Lemma U_closed : closed F U.
Proof. intros fd Hfd _. by apply Hwf. Qed.

Lemma key_has_underivable x : x ∈ U → x ∉ all_right F → x ∈ K.
Proof.
  intros HxU Hr. destruct (decide (x ∈ K)) as [|Hn]; [done|].
  apply (closure_not_derivable F K x Hr) in Hn. by rewrite Hsuper in Hn.
Qed.

(** A right-only attribute is never part of a minimal key. *)
Lemma key_no_right_only x : x ∈ K → x ∈ all_right F → x ∈ all_left F.
Proof.
  intros HxK Hr. destruct (decide (x ∈ all_left F)) as [|Hl]; [done|].
  exfalso. apply (Hmin x HxK).
  pose proof (closure_drop_unused F K x Hl) as Hdrop.
  rewrite Hsuper in Hdrop.
  apply elem_of_all_right in Hr as (fd & Hfd & Hx).
  assert (x ∈ closure F (K ∖ {[x]})) as Hxc.
  { apply (closure_closed F _ fd Hfd); [|done].
    assert (x ∉ lhs fd) by (rewrite elem_of_all_left in Hl; naive_solver).
    destruct (Hwf fd Hfd) as [HlU _]. set_solver. }
  apply set_eq. intros y. split.
  - apply closure_least; [apply U_closed|set_solver].
  - intros Hy. destruct (decide (y = x)) as [->|]; [done|]. set_solver.
Qed.

Lemma key_decomposition :
  K = (all_left F ∖ all_right F)
        ∪ list_to_set (filter (λ x, x ∈ K) (iter (all_left F ∩ all_right F)))
        ∪ (U ∖ (all_left F ∪ all_right F)).
Proof.
  apply set_eq. intros x.
  rewrite !elem_of_union, !elem_of_difference, elem_of_list_to_set,
    list_elem_of_filter, iter_elem, elem_of_intersection, elem_of_union.
  split.
  - intros HxK. pose proof (key_no_right_only x HxK).
    destruct (decide (x ∈ all_left F)), (decide (x ∈ all_right F)); set_solver.
  - intros [[[Hl Hr]|[? _]]|[HxU Hn]]; [|done|].
    + apply key_has_underivable; [|done].
      apply elem_of_all_left in Hl as (fd & Hfd & Hx).
      destruct (Hwf fd Hfd) as [HlU _]. set_solver.
    + apply key_has_underivable; [done|]. set_solver.
Qed.

(** Completeness of the search. *)
Lemma candidate_keys_complete : K ∈ candidate_keys iter rs.
Proof.
  apply elem_of_candidate_keys.
  exists (filter (λ x, x ∈ K) (iter (all_left F ∩ all_right F))).
  split_and!.
  - apply sublist_filter.
  - apply key_decomposition.
  - by apply is_key_spec.
Qed.

End Complete.

Lemma candidate_keys_NoDup rs : NoDup (candidate_keys iter rs).
Proof.
  unfold candidate_keys.
  set (left := all_left (fd_set rs) ∖ all_right (fd_set rs)).
  set (both := all_left (fd_set rs) ∩ all_right (fd_set rs)).
  set (isolated := attributes rs ∖ (all_left (fd_set rs) ∪ all_right (fd_set rs))).
  assert (Hinj : ∀ s1 s2 : list string,
    s1 `sublist_of` iter both → s2 `sublist_of` iter both →
    left ∪ list_to_set s1 ∪ isolated = left ∪ list_to_set s2 ∪ isolated →
    s1 = s2).
  { intros s1 s2 H1 H2 Heq.
    apply (sublist_same_elems s1 s2 (iter both)); [apply iter_NoDup|done..|].
    assert (∀ s : list string, s `sublist_of` iter both →
              ∀ x, x ∈ s → x ∈ both) as Hin.
    { intros s Hs x Hx. apply iter_elem. by eapply elem_of_sublist. }
    intros x. split; intros Hx.
    - pose proof (Hin _ H1 _ Hx).
      assert (x ∈ left ∪ list_to_set s2 ∪ isolated) as Hx2
        by (rewrite <- Heq; set_solver).
      set_solver.
    - pose proof (Hin _ H2 _ Hx).
      assert (x ∈ left ∪ list_to_set s1 ∪ isolated) as Hx1
        by (rewrite Heq; set_solver).
      set_solver. }
  assert (Hone : ∀ s K, K ∈ (let candidate := left ∪ list_to_set s ∪ isolated in
                     if is_key iter rs candidate then [candidate] else []) →
                   K = left ∪ list_to_set s ∪ isolated).
  { intros s K HK. cbv zeta in HK. case_match; [|inversion HK].
    by apply list_elem_of_singleton in HK. }
  apply NoDup_flat_map.
  - intros r1 r2 K _ _ (s1 & Hs1 & HK1)%elem_of_flat_map
      (s2 & Hs2 & HK2)%elem_of_flat_map.
    apply combinations_sublist in Hs1 as [Hs1 <-].
    apply combinations_sublist in Hs2 as [Hs2 <-].
    apply Hone in HK1, HK2. f_equal. apply Hinj; [done..|congruence].
  - intros r _. apply NoDup_flat_map.
    + intros s1 s2 K [Hs1 _]%combinations_sublist [Hs2 _]%combinations_sublist
        HK1%Hone HK2%Hone.
      apply Hinj; [done..|congruence].
    + intros s _. cbv zeta. case_match; [apply NoDup_singleton|apply NoDup_nil_2].
    + apply combinations_NoDup, iter_NoDup.
  - apply NoDup_seq.
Qed.

End Keys.

(** C3: every entry [K] of [candidate_keys()] is a superkey,
    [closure(K) == attributes], and removing any one attribute of [K]
    breaks that. *)
Theorem candidate_keys_minimal_superkeys
    (iter : gset string → list string) (rs : RelationSchema) (K : gset string) :
  IterOrder iter →
  K ∈ candidate_keys iter rs →
  closure (fd_set rs) K = attributes rs ∧
  ∀ a, a ∈ K → closure (fd_set rs) (K ∖ {[a]}) ≠ attributes rs.
Proof. intros Hiter. by apply candidate_keys_sound. Qed.

(** C2: when the FDs mention attributes of the universe only, every
    minimal [K ⊆ attributes] with [closure(K) == attributes] is in the
    list returned by [candidate_keys()], such a [K] has no attribute that
    appears on right sides only, and the list has no two equal entries. *)
Theorem candidate_keys_complete_distinct
    (iter : gset string → list string) (rs : RelationSchema) :
  IterOrder iter →
  (∀ fd, fd ∈ fds (fd_set rs) → lhs fd ⊆ attributes rs ∧ rhs fd ⊆ attributes rs) →
  (∀ K, K ⊆ attributes rs →
        closure (fd_set rs) K = attributes rs →
        (∀ K', K' ⊂ K → closure (fd_set rs) K' ≠ attributes rs) →
        K ∈ candidate_keys iter rs ∧
        K ∩ (all_right (fd_set rs) ∖ all_left (fd_set rs)) = ∅) ∧
  NoDup (candidate_keys iter rs).
Proof.
  intros Hiter Hwf. split; [|by apply candidate_keys_NoDup].
  intros K HKU Hsuper Hmin.
  assert (∀ a, a ∈ K → closure (fd_set rs) (K ∖ {[a]}) ≠ attributes rs) as Hmin1.
  { intros a Ha. apply Hmin. set_solver. }
  split; [by apply candidate_keys_complete|].
  apply set_eq. intros x. split; [|set_solver].
  intros [HxK [Hr Hl]%elem_of_difference]%elem_of_intersection.
  exfalso. apply Hl. by eapply (key_no_right_only iter Hiter rs).
Qed.

(** C7: [is_lossless_decomposition(fragments)] is [True] exactly when some
    fragment is a superset of some set in [candidate_keys()]. *)
Theorem lossless_iff_fragment_has_key
    (iter : gset string → list string) (rs : RelationSchema)
    (fragments : list (gset string)) :
  is_lossless_decomposition iter rs fragments = true ↔
  ∃ fragment key,
    fragment ∈ fragments ∧ key ∈ candidate_keys iter rs ∧ key ⊆ fragment.
Proof.
  unfold is_lossless_decomposition. rewrite existsb_exists. split.
  - intros (fragment & Hf & (key & Hk & Hsub)%existsb_exists).
    exists fragment, key. rewrite !list_elem_of_In.
    by apply bool_decide_eq_true in Hsub.
  - intros (fragment & key & Hf & Hk & Hsub). exists fragment.
    split; [by apply list_elem_of_In|]. apply existsb_exists. exists key.
    split; [by apply list_elem_of_In|]. by apply bool_decide_eq_true.
Qed.

(** ** The normal-form judges *)

Lemma truthy_false {A} (l : list A) : truthy l = false ↔ l = [].
Proof. by destruct l. Qed.

Lemma truthy_true {A} (l : list A) : truthy l = true ↔ l ≠ [].
Proof. by destruct l. Qed.

(** C5: [judge_NF()] runs the 2NF, 3NF and BCNF judges in this order on
    the candidate keys and stops at the first one that reports violations:
    level "1NF", "2NF" or "3NF" with that judge's violations, and
    ("BCNF", []) when none reports any. *)
Theorem judge_NF_stages (iter : gset string → list string) (rs : RelationSchema) :
  let keys := candidate_keys iter rs in
  (judge_2NF iter rs keys ≠ [] →
     judge_NF iter rs = ("1NF", judge_2NF iter rs keys)) ∧
  (judge_2NF iter rs keys = [] → judge_3NF iter rs keys ≠ [] →
     judge_NF iter rs = ("2NF", judge_3NF iter rs keys)) ∧
  (judge_2NF iter rs keys = [] → judge_3NF iter rs keys = [] →
   judge_BCNF iter rs keys ≠ [] →
     judge_NF iter rs = ("3NF", judge_BCNF iter rs keys)) ∧
  (judge_2NF iter rs keys = [] → judge_3NF iter rs keys = [] →
   judge_BCNF iter rs keys = [] →
     judge_NF iter rs = ("BCNF", [])).
Proof.
  intros keys. unfold judge_NF. fold keys. split_and!.
  - intros H%truthy_true. by rewrite H.
  - intros H2%truthy_false H3%truthy_true. by rewrite H2, H3.
  - intros H2%truthy_false H3%truthy_false HB%truthy_true. by rewrite H2, H3, HB.
  - intros H2%truthy_false H3%truthy_false HB%truthy_false. by rewrite H2, H3, HB.
Qed.

Lemma singleton_rhs_drop_empty iter F :
  IterOrder iter → singleton_rhs iter F = singleton_rhs iter (drop_empty_rhs F).
Proof.
  intros Hiter. unfold singleton_rhs, drop_empty_rhs. f_equal. simpl.
  induction (fds F) as [|fd l IH]; [done|].
  rewrite filter_cons. simpl. destruct (decide (rhs fd ≠ ∅)) as [|Hn]; simpl.
  - by rewrite IH.
  - apply dec_stable in Hn. by rewrite Hn, (iter_empty iter Hiter), IH.
Qed.

(** C10: an FD with an empty right side vanishes under
    [singleton_rhs()]: by itself it yields no elementary FD, the
    decomposition of [F] is that of [F] without such FDs, and so are the
    violations reported by the three judges. *)
Theorem empty_rhs_vanishes (iter : gset string → list string) (F : FDSet) :
  IterOrder iter →
  (∀ X, singleton_rhs iter (mkFDSet [mkFD X ∅]) = mkFDSet []) ∧
  singleton_rhs iter F = singleton_rhs iter (drop_empty_rhs F) ∧
  ∀ U keys,
    judge_2NF iter (mkRS U F) keys = judge_2NF iter (mkRS U (drop_empty_rhs F)) keys ∧
    judge_3NF iter (mkRS U F) keys = judge_3NF iter (mkRS U (drop_empty_rhs F)) keys ∧
    judge_BCNF iter (mkRS U F) keys = judge_BCNF iter (mkRS U (drop_empty_rhs F)) keys.
Proof.
  intros Hiter. split_and!.
  - intros X. unfold singleton_rhs. simpl. by rewrite (iter_empty iter Hiter).
  - by apply singleton_rhs_drop_empty.
  - intros U keys. unfold judge_2NF, judge_3NF, judge_BCNF. cbn [fd_set].
    by rewrite <- (singleton_rhs_drop_empty iter F Hiter).
Qed.

(** ** Scenario B: attributes {A,B,C,D}, FDs {A->B, BC->D, D->A} *)

Lemma first_partial_prime iter prime fd keys :
  rhs fd ⊆ prime → first_partial iter prime fd keys = [].
Proof.
  intros H. induction keys as [|key keys IH]; simpl; [done|].
  unfold partial_on. rewrite (bool_decide_eq_true_2 _ H).
  by rewrite andb_false_r.
Qed.

Lemma not_superkey_true keys fd :
  (∀ key, key ∈ keys → key ⊈ lhs fd) → not_superkey keys fd = true.
Proof.
  intros H. apply forallb_forall. intros key Hk%list_elem_of_In.
  by apply negb_true_iff, bool_decide_eq_false, H.
Qed.

Lemma not_superkey_false keys fd key :
  key ∈ keys → key ⊆ lhs fd → not_superkey keys fd = false.
Proof.
  intros Hk Hsub. apply not_true_is_false. unfold not_superkey.
  rewrite forallb_forall. intros H. apply list_elem_of_In, H in Hk.
  by apply negb_true_iff, bool_decide_eq_false in Hk.
Qed.

Section ScenarioB.

Variable iter : gset string → list string.
Hypothesis Hiter : IterOrder iter.

Let keys := candidate_keys iter scenario_B.

Lemma scenario_B_atomic :
  fds (singleton_rhs iter (fd_set scenario_B)) = [A_B; BC_D; D_A].
Proof.
  unfold singleton_rhs, scenario_B, A_B, BC_D, D_A.
  cbn [fds fd_set flat_map lhs rhs].
  rewrite !(iter_singleton iter Hiter). cbn [map app].
  unfold frozenset_str. cbn [str_chars list_to_set].
  by rewrite !union_empty_r_L.
Qed.

Lemma scenario_B_wf fd :
  fd ∈ fds (fd_set scenario_B) →
  lhs fd ⊆ attributes scenario_B ∧ rhs fd ⊆ attributes scenario_B.
Proof.
  cbn [scenario_B fds fd_set attributes]. rewrite !elem_of_cons.
  intros [->|[->|[->|H]]]; [| | |inversion H];
    split; by_compute.
Qed.

Lemma scenario_B_key_has_C K : K ∈ keys → "C" ∈ K.
Proof.
  intros H%(candidate_keys_left iter Hiter). apply H.
  by_compute.
Qed.

Lemma scenario_B_key (x : string) :
  x ∈ ({["A"; "B"; "D"]} : gset string) → ({[x; "C"]} : gset string) ∈ keys.
Proof.
  intros Hx. apply (candidate_keys_complete iter Hiter).
  - apply scenario_B_wf.
  - cbn [scenario_B attributes]. set_solver.
  - set_unfold in Hx. destruct Hx as [[-> | ->] | ->]; by vm_compute.
  - intros a Ha. set_unfold in Hx. set_unfold in Ha.
    destruct Hx as [[-> | ->] | ->]; destruct Ha as [-> | ->];
      by_compute.
Qed.

Lemma scenario_B_prime : attributes scenario_B ⊆ prime_attrs keys.
Proof.
  intros x Hx. apply elem_of_prime_attrs.
  cbn [scenario_B attributes] in Hx.
  destruct (decide (x = "C")) as [->|].
  - exists {["A"; "C"]}. split; [apply scenario_B_key|]; set_solver.
  - exists {[x; "C"]}. split; [apply scenario_B_key|]; set_solver.
Qed.

Lemma scenario_B_rhs_prime fd :
  fd ∈ [A_B; BC_D; D_A] → rhs fd ⊆ prime_attrs keys.
Proof.
  intros Hfd. etrans; [|apply scenario_B_prime].
  rewrite !elem_of_cons in Hfd.
  destruct Hfd as [->|[->|[->|H]]]; [| | |inversion H];
    by_compute.
Qed.

Lemma scenario_B_2NF : judge_2NF iter scenario_B keys = [].
Proof.
  unfold judge_2NF. rewrite scenario_B_atomic. cbn [flat_map].
  rewrite !first_partial_prime; [done|apply scenario_B_rhs_prime; set_solver..].
Qed.

Lemma scenario_B_3NF : judge_3NF iter scenario_B keys = [].
Proof.
  unfold judge_3NF. rewrite scenario_B_atomic. cbn [flat_map].
  rewrite !(bool_decide_eq_true_2 (rhs _ ⊆ _));
    [|apply scenario_B_rhs_prime; set_solver..].
  by rewrite !andb_false_r.
Qed.

Lemma scenario_B_join (x : string) : join_sorted iter {[x]} = x.
Proof.
  unfold join_sorted. rewrite (iter_singleton iter Hiter).
  cbn. by destruct x.
Qed.

Lemma scenario_B_BCNF :
  judge_BCNF iter scenario_B keys =
    ["Violation: A -> B violates BCNF"; "Violation: D -> A violates BCNF"].
Proof.
  unfold judge_BCNF. rewrite scenario_B_atomic. cbn [flat_map].
  rewrite (not_superkey_true keys A_B), (not_superkey_true keys D_A).
  - rewrite (not_superkey_false keys BC_D {["B"; "C"]});
      [|apply scenario_B_key; set_solver|done].
    unfold msg_BCNF, A_B, D_A. cbn [lhs rhs app].
    by rewrite !scenario_B_join.
  - intros key HC%scenario_B_key_has_C Hsub. apply Hsub in HC.
    cbn [D_A lhs] in HC. set_solver.
  - intros key HC%scenario_B_key_has_C Hsub. apply Hsub in HC.
    cbn [A_B lhs] in HC. set_solver.
Qed.

Lemma scenario_B_judge :
  judge_NF iter scenario_B =
    ("3NF", ["Violation: A -> B violates BCNF"; "Violation: D -> A violates BCNF"]).
Proof.
  unfold judge_NF. fold keys.
  by rewrite scenario_B_2NF, scenario_B_3NF, scenario_B_BCNF.
Qed.

End ScenarioB.

(** C6: for attributes {A,B,C,D} and FDs {A->B, BC->D, D->A},
    [judge_NF()] returns level "3NF" with at least one violation, whatever
    the iteration order of the sets. *)
Theorem scenario_B_is_3NF (iter : gset string → list string) :
  IterOrder iter →
  (judge_NF iter scenario_B).1 = "3NF" ∧
  1 ≤ length (judge_NF iter scenario_B).2.
Proof.
  intros Hiter. rewrite (scenario_B_judge iter Hiter). simpl. split; [done|lia].
Qed.

(** ** Implication between FD sets *)

Lemma implies_spec F fd : implies F fd = true ↔ rhs fd ⊆ closure F (lhs fd).
Proof. unfold implies. apply bool_decide_eq_true. Qed.

Lemma FDSet_eq_spec F G : FDSet_eq F G = true ↔ equivalent F G.
Proof.
  unfold FDSet_eq, equivalent, entails.
  rewrite andb_true_iff, !forallb_forall.
  setoid_rewrite implies_spec. setoid_rewrite list_elem_of_In. tauto.
Qed.

Lemma entails_closure F G X : entails F G → closure G X ⊆ closure F X.
Proof.
  intros H. apply closure_least; [|apply closure_extensive].
  intros fd Hfd Hl. etrans; [by apply H|].
  rewrite <- (closure_idem F X). by apply closure_mono.
Qed.

Lemma entails_trans F G H : entails F G → entails G H → entails F H.
Proof.
  intros HFG HGH fd Hfd. etrans; [by apply HGH|]. by apply entails_closure.
Qed.

Lemma entails_incl F G : fds G ⊆ fds F → entails F G.
Proof.
  intros H fd Hfd. apply (closure_closed F (lhs fd) fd); [by apply H|].
  apply closure_extensive.
Qed.

Lemma equivalent_trans F G H : equivalent F G → equivalent G H → equivalent F H.
Proof. intros [? ?] [? ?]. split; by eapply entails_trans. Qed.

Lemma equivalent_sym F G : equivalent F G → equivalent G F.
Proof. by intros [? ?]. Qed.

Lemma equivalent_same_elems F G :
  (∀ fd, fd ∈ fds F ↔ fd ∈ fds G) → equivalent F G.
Proof. intros H. split; apply entails_incl; intros fd; apply H. Qed.

(** ** Removal of redundant FDs *)

Lemma remove_scan_equivalent rest kept changed :
  equivalent (mkFDSet (kept ++ rest))
             (mkFDSet (remove_scan kept rest changed).1).
Proof.
  revert kept changed. induction rest as [|fd rest IH]; intros kept changed; simpl.
  - rewrite app_nil_r. by apply equivalent_same_elems.
  - destruct (implies (mkFDSet (kept ++ rest)) fd) eqn:E.
    + eapply equivalent_trans; [|apply IH]. split.
      * apply entails_incl. simpl. intros x. rewrite !elem_of_app, elem_of_cons.
        tauto.
      * intros x. simpl. rewrite elem_of_app, elem_of_cons.
        intros [?|[->|?]].
        -- apply (entails_incl (mkFDSet (kept ++ rest)) (mkFDSet (kept ++ rest)));
             [done|]. simpl. rewrite elem_of_app. tauto.
        -- by apply implies_spec.
        -- apply (entails_incl (mkFDSet (kept ++ rest)) (mkFDSet (kept ++ rest)));
             [done|]. simpl. rewrite elem_of_app. tauto.
    + replace (kept ++ fd :: rest) with ((kept ++ [fd]) ++ rest)
        by (by rewrite <- app_assoc). apply IH.
Qed.

Lemma remove_scan_length rest kept changed :
  let r := remove_scan kept rest changed in
  length r.1 ≤ length kept + length rest ∧
  (r.2 = true → changed = true ∨ length r.1 < length kept + length rest).
Proof.
  revert kept changed. induction rest as [|fd rest IH]; intros kept changed; simpl.
  - split; [lia|by left].
  - destruct (implies (mkFDSet (kept ++ rest)) fd).
    + destruct (IH kept true) as [Hle _]. split; [lia|]. intros _. right. lia.
    + destruct (IH (kept ++ [fd]) changed) as [Hle Hlt].
      rewrite length_app in Hle, Hlt. simpl in *. split; [lia|].
      intros H. destruct (Hlt H); [by left|right; lia].
Qed.

Lemma remove_loop_fuel n m l :
  length l < n → length l < m →
  is_Some (remove_loop n l) ∧ remove_loop n l = remove_loop m l.
Proof.
  revert m l. induction n as [|n IH]; intros m l Hn Hm; [lia|].
  destruct m as [|m]; [lia|]. simpl.
  destruct (remove_scan [] l false).2 eqn:E; [|by eauto].
  destruct (remove_scan_length l [] false) as [_ Hlt].
  destruct (Hlt E) as [?|Hlt']; [done|]. simpl in Hlt'. apply IH; lia.
Qed.

(** The outer [while changed] loop of step 3 terminates: any fuel above
    the length of the list yields the value of [remove_redundant]. *)
Lemma remove_loop_enough l n :
  length l < n → remove_loop n l = Some (remove_redundant l).
Proof.
  intros Hn.
  destruct (remove_loop_fuel (S (length l)) n l) as [[r Hr] Heq]; [lia..|].
  unfold remove_redundant. by rewrite <- Heq, Hr.
Qed.

Lemma remove_loop_equivalent n l r :
  remove_loop n l = Some r → equivalent (mkFDSet l) (mkFDSet r).
Proof.
  revert l. induction n as [|n IH]; intros l; simpl; [done|].
  pose proof (remove_scan_equivalent l [] false) as Hscan. simpl in Hscan.
  destruct (remove_scan [] l false).2.
  - intros H%IH. by eapply equivalent_trans.
  - by intros [= <-].
Qed.

Lemma remove_redundant_equivalent l :
  equivalent (mkFDSet l) (mkFDSet (remove_redundant l)).
Proof.
  apply (remove_loop_equivalent (S (length l))). apply remove_loop_enough. lia.
Qed.

Lemma elem_of_dedup_fds l fd : fd ∈ dedup_fds l ↔ fd ∈ l.
Proof.
  unfold dedup_fds.
  assert (∀ acc, fd ∈ foldl (λ u x, if bool_decide (x ∈ u) then u else u ++ [x]) acc l
                 ↔ fd ∈ acc ∨ fd ∈ l) as H.
  { induction l as [|x l IH]; intros acc; simpl.
    - split; [by left|]. intros [?|H]; [done|inversion H].
    - rewrite IH, elem_of_cons. case_bool_decide.
      + split; [tauto|]. intros [?|[->|?]]; tauto.
      + rewrite elem_of_app, list_elem_of_singleton. tauto. }
  rewrite H. split; [|tauto]. intros [H'|?]; [inversion H'|done].
Qed.

(** ** Canonical cover *)

Lemma frozenset_str_one_char a : one_char a → frozenset_str a = {[a]}.
Proof.
  unfold one_char, frozenset_str. destruct a as [|c [|c' a]]; simpl; [done| |done].
  intros _. apply union_empty_r_L.
Qed.

Lemma Forall2_elem_of_l {A B} (R : A → B → Prop) l k x :
  Forall2 R l k → x ∈ l → ∃ y, y ∈ k ∧ R x y.
Proof.
  induction 1 as [|a b l k HR _ IH]; [by intros ?%elem_of_nil|].
  intros [->|Hx]%elem_of_cons.
  - exists b. split; [apply list_elem_of_here|done].
  - destruct (IH Hx) as (y & ? & ?). exists y. split; [by apply list_elem_of_further|done].
Qed.

Lemma Forall2_elem_of_r {A B} (R : A → B → Prop) l k y :
  Forall2 R l k → y ∈ k → ∃ x, x ∈ l ∧ R x y.
Proof.
  induction 1 as [|a b l k HR _ IH]; [by intros ?%elem_of_nil|].
  intros [->|Hy]%elem_of_cons.
  - exists a. split; [apply list_elem_of_here|done].
  - destruct (IH Hy) as (x & ? & ?). exists x. split; [by apply list_elem_of_further|done].
Qed.

Section Cover.

Variable iter : gset string → list string.
Hypothesis Hiter : IterOrder iter.

Lemma elem_of_singleton_rhs F fd' :
  fd' ∈ fds (singleton_rhs iter F) ↔
  ∃ fd a, fd ∈ fds F ∧ a ∈ rhs fd ∧ fd' = mkFD (lhs fd) (frozenset_str a).
Proof.
  unfold singleton_rhs. cbn [fds]. rewrite elem_of_flat_map.
  setoid_rewrite elem_of_map. setoid_rewrite (iter_elem iter Hiter).
  naive_solver.
Qed.

(** Step 2 keeps the right side, shrinks the left side and stays inside
    what the elementary set [S] implies. *)
Lemma minimize_lhs_spec S fd a :
  rhs fd = {[a]} →
  a ∈ closure (mkFDSet S) (lhs fd) →
  ∃ m, minimize_lhs iter S fd = Some m ∧
       rhs m = frozenset_str a ∧ lhs m ⊆ lhs fd ∧
       a ∈ closure (mkFDSet S) (lhs m).
Proof.
  intros Hr Ha. unfold minimize_lhs. rewrite Hr, (iter_singleton iter Hiter).
  eexists. split; [done|]. cbn [lhs rhs]. split; [done|].
  generalize (iter (lhs fd)). intros l.
  assert (∀ acc, acc ⊆ lhs fd → a ∈ closure (mkFDSet S) acc →
    let r := foldl (λ minimal_lhs b,
               let candidate := minimal_lhs ∖ {[b]} in
               if bool_decide (a ∈ closure (mkFDSet S) candidate)
               then minimal_lhs ∖ {[b]} else minimal_lhs) acc l in
    r ⊆ lhs fd ∧ a ∈ closure (mkFDSet S) r) as H.
  { induction l as [|b l IH]; intros acc Hacc Hin; simpl; [done|].
    case_bool_decide; apply IH; [set_solver|done..]. }
  by apply H.
Qed.

Variable F : FDSet.
(** Every right-side attribute of [F] is a one-character string. *)
Hypothesis Hone : ∀ fd a, fd ∈ fds F → a ∈ rhs fd → one_char a.

Lemma singleton_rhs_equivalent : equivalent F (singleton_rhs iter F).
Proof.
  split.
  - intros fd' (fd & a & Hfd & Ha & ->)%elem_of_singleton_rhs. cbn [lhs rhs].
    rewrite (frozenset_str_one_char a) by by eapply Hone.
    pose proof (entails_incl F F (λ _ H, H) fd Hfd). set_solver.
  - intros fd Hfd a Ha.
    assert (mkFD (lhs fd) {[a]} ∈ fds (singleton_rhs iter F)) as Hin.
    { apply elem_of_singleton_rhs. exists fd, a. split_and!; [done..|].
      by rewrite (frozenset_str_one_char a) by by eapply Hone. }
    apply (closure_closed _ (lhs fd) _ Hin); cbn [lhs rhs];
      [apply closure_extensive|set_solver].
Qed.

Lemma singleton_rhs_shape fd' :
  fd' ∈ fds (singleton_rhs iter F) → ∃ a, one_char a ∧ rhs fd' = {[a]}.
Proof.
  intros (fd & a & Hfd & Ha & ->)%elem_of_singleton_rhs. exists a.
  assert (one_char a) by by eapply Hone.
  split; [done|]. by apply frozenset_str_one_char.
Qed.

(** [canonical_cover] returns, and what it returns is equivalent
    to [F]. *)
Lemma canonical_cover_equivalent :
  ∃ cover, canonical_cover iter F = Some cover ∧ equivalent cover F.
Proof.
  unfold canonical_cover.
  set (S := fds (singleton_rhs iter F)).
  assert (HS : ∀ fd, fd ∈ S →
    ∃ a m, one_char a ∧ rhs fd = {[a]} ∧ minimize_lhs iter S fd = Some m ∧
           rhs m = {[a]} ∧ lhs m ⊆ lhs fd ∧ a ∈ closure (mkFDSet S) (lhs m)).
  { intros fd Hfd. destruct (singleton_rhs_shape fd Hfd) as (a & Ha & Hr).
    destruct (minimize_lhs_spec S fd a Hr) as (m & Hm & Hmr & Hml & Hmc).
    - pose proof (entails_incl (mkFDSet S) (mkFDSet S) (λ _ H, H) fd Hfd).
      set_solver.
    - exists a, m. rewrite (frozenset_str_one_char a Ha) in Hmr. done. }
  destruct (mapM_is_Some_2 (minimize_lhs iter S) S) as [M HM].
  { apply Forall_forall. intros fd Hfd.
    destruct (HS fd Hfd) as (a & m & _ & _ & Hm & _). by exists m. }
  rewrite HM. cbn. eexists. split; [done|].
  apply mapM_Some_1 in HM.
  apply equivalent_sym.
  eapply equivalent_trans; [apply singleton_rhs_equivalent|].
  eapply equivalent_trans; [|apply remove_redundant_equivalent].
  eapply equivalent_trans;
    [|apply (equivalent_same_elems (mkFDSet M)); intros fd; symmetry;
      apply elem_of_dedup_fds].
  split.
  - intros m Hm. cbn [fds] in Hm.
    destruct (Forall2_elem_of_r _ _ _ _ HM Hm) as (fd & Hfd & Hmin).
    destruct (HS fd Hfd) as (a & m' & _ & _ & Hm' & Hr & _ & Hc).
    assert (m' = m) as -> by congruence.
    rewrite Hr. fold S. set_solver.
  - intros fd Hfd. fold S in Hfd.
    destruct (Forall2_elem_of_l _ _ _ _ HM Hfd) as (m & Hm & Hmin).
    destruct (HS fd Hfd) as (a & m' & _ & Hfr & Hm' & Hr & Hl & _).
    assert (m' = m) as -> by congruence.
    rewrite Hfr, <- Hr. etrans; [|by apply closure_mono].
    apply (closure_closed (mkFDSet M) (lhs m) m Hm), closure_extensive.
Qed.

End Cover.

(** X10: [canonical_cover()] on FD sets over one-character attributes: it
    returns, and [cover == F] holds. *)
Theorem canonical_cover_one_char (iter : gset string → list string) (F : FDSet) :
  IterOrder iter →
  (∀ fd a, fd ∈ fds F → a ∈ rhs fd → one_char a) →
  ∃ cover, canonical_cover iter F = Some cover ∧ FDSet_eq cover F = true.
Proof.
  intros Hiter Hone.
  destruct (canonical_cover_equivalent iter Hiter F Hone) as (cover & Hc & Heq).
  exists cover. split; [done|]. by apply FDSet_eq_spec.
Qed.

(** C1 at [F_multi]: [singleton_rhs()] builds the right side with
    [frozenset("BB")], which is {"B"}; the cover is {A -> B} and
    [cover == F] is [False]. *)
Theorem canonical_cover_multi_char (iter : gset string → list string) :
  IterOrder iter →
  canonical_cover iter F_multi = Some (mkFDSet [mkFD {["A"]} {["B"]}]) ∧
  FDSet_eq (mkFDSet [mkFD {["A"]} {["B"]}]) F_multi = false.
Proof.
  intros Hiter. split; [|by vm_compute].
  assert (frozenset_str "BB" = {["B"]}) as HBB by by_compute.
  assert (frozenset_str "B" = {["B"]}) as HB by by_compute.
  unfold canonical_cover, singleton_rhs, F_multi. cbn [fds flat_map lhs rhs].
  rewrite (iter_singleton iter Hiter). cbn [map app]. rewrite HBB.
  cbn [mapM]. unfold minimize_lhs. cbn [lhs rhs].
  rewrite !(iter_singleton iter Hiter), HB. by vm_compute.
Qed.


(** ** The default argument of [FDSet.__init__] *)

Section AliasingFacts.

Import Aliasing.

Lemma two_displays_independent fd :
  ∃ a b, result (two_displays fd) = Some (a, b, []) ∧ fds_ref a ≠ fds_ref b.
Proof. eexists _, _. split; [reflexivity|]. simpl. lia. Qed.

Lemma len_after_append_one fd : result (len_after_append fd) = Some 1.
Proof. reflexivity. Qed.

(** C9 on the code: two [FDSet()] hold the same list object, and an FD
    appended through one is read through the other. *)
Theorem default_fds_shared (fd : FD) :
  ∃ a b, result (two_defaults fd) = Some (a, b, [fd]) ∧ fds_ref a = fds_ref b.
Proof. eexists _, _. split; reflexivity. Qed.

End AliasingFacts.

(** ** Further properties of the closure *)

Lemma closure_within F X Y : closed F Y → X ⊆ Y → closure F X ⊆ Y.
Proof. apply closure_least. Qed.

Lemma closure_right_bound F X : closure F X ⊆ X ∪ all_right F.
Proof.
  apply closure_least; [|set_solver].
  intros fd Hfd _ a Ha. apply elem_of_union. right.
  apply elem_of_all_right. by exists fd.
Qed.

Lemma closure_fds_incl F G X : fds F ⊆ fds G → closure F X ⊆ closure G X.
Proof. intros H. by apply entails_closure, entails_incl. Qed.

Lemma closure_same_fds F G X :
  (∀ fd, fd ∈ fds F ↔ fd ∈ fds G) → closure F X = closure G X.
Proof.
  intros H. apply set_eq. intros x. split.
  - apply closure_fds_incl. intros fd. apply H.
  - apply closure_fds_incl. intros fd. apply H.
Qed.

(** X1: The closure is monotone in the attribute set. *)
Theorem closure_monotone (F : FDSet) (X Y : gset string) :
  X ⊆ Y → closure F X ⊆ closure F Y.
Proof. apply closure_mono. Qed.

(** X2: The result of [closure] is closed under every FD of the list and is
    contained in every closed set that contains the start set. *)
Theorem closure_least_closed_superset (F : FDSet) (X : gset string) :
  (∀ fd, fd ∈ fds F → lhs fd ⊆ closure F X → rhs fd ⊆ closure F X) ∧
  (∀ Y, (∀ fd, fd ∈ fds F → lhs fd ⊆ Y → rhs fd ⊆ Y) → X ⊆ Y → closure F X ⊆ Y).
Proof. split; [apply closure_closed|apply closure_least]. Qed.

(** X3: [closure] adds right-side attributes only. *)
Theorem closure_adds_right_sides_only (F : FDSet) (X : gset string) :
  closure F X ⊆ X ∪ all_right F.
Proof. apply closure_right_bound. Qed.

(** X4: Order and repetitions in [fds] do not change [closure]; more FDs give
    a larger closure. *)
Theorem closure_depends_on_fd_members (F G : FDSet) (X : gset string) :
  fds F ⊆ fds G →
  closure F X ⊆ closure G X ∧ (fds G ⊆ fds F → closure F X = closure G X).
Proof.
  intros H. split; [by apply closure_fds_incl|].
  intros H'. apply closure_same_fds. intros fd. split; [apply H|apply H'].
Qed.

(** ** Armstrong's rules for [implies] *)

Lemma implies_member F fd : fd ∈ fds F → implies F fd = true.
Proof. intros H. apply implies_spec. by apply (entails_incl F F). Qed.

Lemma implies_reflexive F X Y : Y ⊆ X → implies F (mkFD X Y) = true.
Proof.
  intros H. apply implies_spec. cbn [lhs rhs].
  etrans; [exact H|apply closure_extensive].
Qed.

Lemma implies_augment F X Y Z :
  implies F (mkFD X Y) = true → implies F (mkFD (X ∪ Z) (Y ∪ Z)) = true.
Proof.
  rewrite !implies_spec. cbn [lhs rhs]. intros H.
  apply union_subseteq. split.
  - etrans; [exact H|]. apply closure_mono. set_solver.
  - etrans; [|apply closure_extensive]. set_solver.
Qed.

Lemma implies_transitive F X Y Z :
  implies F (mkFD X Y) = true → implies F (mkFD Y Z) = true →
  implies F (mkFD X Z) = true.
Proof.
  rewrite !implies_spec. cbn [lhs rhs]. intros H1 H2.
  etrans; [exact H2|]. rewrite <- (closure_idem F X). by apply closure_mono.
Qed.

(** X5: [implies] accepts every listed FD and is closed under Armstrong's
    rules: reflexivity, augmentation and transitivity. *)
Theorem implies_armstrong (F : FDSet) :
  (∀ fd, fd ∈ fds F → implies F fd = true) ∧
  (∀ X Y, Y ⊆ X → implies F (mkFD X Y) = true) ∧
  (∀ X Y Z, implies F (mkFD X Y) = true →
            implies F (mkFD (X ∪ Z) (Y ∪ Z)) = true) ∧
  (∀ X Y Z, implies F (mkFD X Y) = true → implies F (mkFD Y Z) = true →
            implies F (mkFD X Z) = true).
Proof.
  split_and!.
  - apply implies_member.
  - apply implies_reflexive.
  - apply implies_augment.
  - apply implies_transitive.
Qed.

(** X6: Union and decomposition: an FD is implied exactly when each part of
    its right side is. *)
Theorem implies_union_rhs (F : FDSet) (X Y Z : gset string) :
  implies F (mkFD X (Y ∪ Z)) = implies F (mkFD X Y) && implies F (mkFD X Z).
Proof.
  apply eq_true_iff_eq. rewrite andb_true_iff, !implies_spec. cbn [lhs rhs].
  set_solver.
Qed.

(** ** [FDSet.__eq__] *)

Lemma equivalent_refl F : equivalent F F.
Proof. by apply equivalent_same_elems. Qed.

Lemma equivalent_closure F G : equivalent F G ↔ ∀ X, closure F X = closure G X.
Proof.
  split.
  - intros [H1 H2] X. apply set_eq. intros x. split.
    + by apply entails_closure.
    + by apply entails_closure.
  - intros H. split.
    + intros fd Hfd. rewrite H. by apply (entails_incl G G).
    + intros fd Hfd. rewrite <- H. by apply (entails_incl F F).
Qed.

(** X7: [==] on FD sets is an equivalence relation. *)
Theorem FDSet_eq_equivalence :
  (∀ F, FDSet_eq F F = true) ∧
  (∀ F G, FDSet_eq F G = FDSet_eq G F) ∧
  (∀ F G H, FDSet_eq F G = true → FDSet_eq G H = true → FDSet_eq F H = true).
Proof.
  split_and!.
  - intros F. apply FDSet_eq_spec, equivalent_refl.
  - intros F G. apply eq_true_iff_eq. rewrite !FDSet_eq_spec.
    split; apply equivalent_sym.
  - intros F G H. rewrite !FDSet_eq_spec. apply equivalent_trans.
Qed.

(** X8: Two FD sets are [==] exactly when they give every attribute set the
    same closure. *)
Theorem FDSet_eq_iff_same_closure (F G : FDSet) :
  FDSet_eq F G = true ↔ ∀ X, closure F X = closure G X.
Proof. rewrite FDSet_eq_spec. apply equivalent_closure. Qed.

(** ** Steps of the canonical cover *)

Lemma remove_scan_quiet rest kept changed :
  (remove_scan kept rest changed).2 = false →
  changed = false ∧ (remove_scan kept rest changed).1 = kept ++ rest ∧
  ∀ p fd q, rest = p ++ fd :: q → implies (mkFDSet (kept ++ p ++ q)) fd = false.
Proof.
  revert kept changed. induction rest as [|fd0 rest IH]; intros kept changed; simpl.
  - intros ->. rewrite app_nil_r. split_and!; [done..|].
    intros [|??] ?? [=].
  - destruct (implies (mkFDSet (kept ++ rest)) fd0) eqn:E.
    + intros H. by destruct (IH _ _ H) as [? _].
    + intros H. destruct (IH _ _ H) as (-> & Heq & Hall).
      split_and!; [done|by rewrite Heq, <- app_assoc|].
      intros [|x p] fd q [= ? ?]; simplify_eq; [done|].
      specialize (Hall p fd q eq_refl). by rewrite <- app_assoc in Hall.
Qed.

Lemma remove_scan_id rest kept changed :
  (∀ p fd q, rest = p ++ fd :: q → implies (mkFDSet (kept ++ p ++ q)) fd = false) →
  remove_scan kept rest changed = (kept ++ rest, changed).
Proof.
  revert kept. induction rest as [|fd0 rest IH]; intros kept H; simpl.
  - by rewrite app_nil_r.
  - pose proof (H [] fd0 rest eq_refl) as H0. simpl in H0. rewrite H0.
    rewrite IH; [by rewrite <- app_assoc|].
    intros p fd q ->. rewrite <- app_assoc. by apply (H (fd0 :: p) fd q).
Qed.

Lemma remove_scan_sublist rest kept changed :
  ∃ s, s `sublist_of` rest ∧ (remove_scan kept rest changed).1 = kept ++ s.
Proof.
  revert kept changed. induction rest as [|fd0 rest IH]; intros kept changed; simpl.
  - exists []. by rewrite app_nil_r.
  - destruct (implies (mkFDSet (kept ++ rest)) fd0).
    + destruct (IH kept true) as (s & Hs & Heq). exists s.
      split; [by apply sublist_cons|done].
    + destruct (IH (kept ++ [fd0]) changed) as (s & Hs & Heq). exists (fd0 :: s).
      split; [by apply sublist_skip|]. by rewrite Heq, <- app_assoc.
Qed.

Lemma remove_loop_sublist n l r : remove_loop n l = Some r → r `sublist_of` l.
Proof.
  revert l. induction n as [|n IH]; intros l; simpl; [done|].
  destruct (remove_scan_sublist l [] false) as (s & Hs & Heq). simpl in Heq.
  destruct (remove_scan [] l false).2.
  - intros H%IH. rewrite Heq in H. by etrans.
  - intros [= <-]. by rewrite Heq.
Qed.

Lemma remove_loop_quiet n l r :
  remove_loop n l = Some r →
  ∀ p fd q, r = p ++ fd :: q → implies (mkFDSet (p ++ q)) fd = false.
Proof.
  revert l. induction n as [|n IH]; intros l; simpl; [done|].
  destruct (remove_scan [] l false).2 eqn:E; [apply IH|].
  destruct (remove_scan_quiet _ _ _ E) as (_ & Heq & Hall).
  intros [= <-]. rewrite Heq. simpl. apply Hall.
Qed.

Lemma remove_redundant_sublist l : remove_redundant l `sublist_of` l.
Proof.
  apply (remove_loop_sublist (S (length l))), remove_loop_enough. lia.
Qed.

Lemma remove_redundant_quiet l p fd q :
  remove_redundant l = p ++ fd :: q → implies (mkFDSet (p ++ q)) fd = false.
Proof.
  apply (remove_loop_quiet (S (length l)) l), remove_loop_enough. lia.
Qed.

Lemma remove_redundant_id l :
  (∀ p fd q, l = p ++ fd :: q → implies (mkFDSet (p ++ q)) fd = false) →
  remove_redundant l = l.
Proof.
  intros H. unfold remove_redundant. simpl.
  rewrite (remove_scan_id l [] false) by done. done.
Qed.

Lemma dedup_fds_fold (acc l : list FD) :
  NoDup acc →
  NoDup (foldl (λ u fd, if bool_decide (fd ∈ u) then u else u ++ [fd]) acc l).
Proof.
  revert acc. induction l as [|x l IH]; intros acc Hacc; simpl; [done|].
  apply IH. case_bool_decide; [done|].
  apply NoDup_app. split_and!; [done| |apply NoDup_singleton].
  intros y Hy ->%list_elem_of_singleton. done.
Qed.

Lemma dedup_fds_NoDup l : NoDup (dedup_fds l).
Proof. apply dedup_fds_fold, NoDup_nil_2. Qed.

Lemma dedup_fds_id l : NoDup l → dedup_fds l = l.
Proof.
  unfold dedup_fds.
  assert (∀ acc : list FD, NoDup (acc ++ l) →
    foldl (λ u fd, if bool_decide (fd ∈ u) then u else u ++ [fd]) acc l = acc ++ l) as H.
  { induction l as [|x l IH]; intros acc Hnd; simpl; [by rewrite app_nil_r|].
    apply NoDup_app in Hnd as Hnd'. destruct Hnd' as (_ & Hdis & _).
    rewrite bool_decide_eq_false_2.
    - rewrite IH; by rewrite <- app_assoc.
    - intros Hx. apply (Hdis x Hx), list_elem_of_here. }
  intros Hnd. by apply (H []).
Qed.

Lemma frozenset_str_empty a : frozenset_str a = ∅ ↔ a = "".
Proof.
  unfold frozenset_str. destruct a as [|c a]; simpl; [done|].
  split; [|done]. intros H. exfalso.
  assert (String c "" ∈ (∅ : gset string)) as H'; [|set_solver].
  rewrite <- H. set_solver.
Qed.

Lemma FDSet_eta F : mkFDSet (fds F) = F.
Proof. by destruct F. Qed.

Section CoverSteps.

Variable iter : gset string → list string.
Hypothesis Hiter : IterOrder iter.

Lemma singleton_rhs_length F :
  length (fds (singleton_rhs iter F)) = sum_list (map (λ fd, size (rhs fd)) (fds F)).
Proof.
  unfold singleton_rhs. cbn [fds]. induction (fds F) as [|fd l IH]; [done|].
  cbn [flat_map map sum_list]. rewrite length_app, length_map, IH.
  by rewrite (iter_length iter Hiter).
Qed.

Lemma singleton_rhs_fixed l :
  (∀ fd, fd ∈ l → ∃ a, one_char a ∧ rhs fd = {[a]}) →
  singleton_rhs iter (mkFDSet l) = mkFDSet l.
Proof.
  intros H. unfold singleton_rhs. cbn [fds]. f_equal.
  induction l as [|fd l IH]; [done|]. cbn [flat_map].
  destruct (H fd (list_elem_of_here _ _)) as (a & Ha & Hr).
  rewrite Hr, (iter_singleton iter Hiter). cbn [map app].
  rewrite (frozenset_str_one_char a Ha), <- Hr.
  rewrite IH by (intros; by apply H, list_elem_of_further).
  by destruct fd.
Qed.

Lemma minimize_lhs_None S fd : minimize_lhs iter S fd = None ↔ rhs fd = ∅.
Proof.
  unfold minimize_lhs. destruct (iter (rhs fd)) as [|a l] eqn:E.
  - split; [|done]. intros _. by apply (iter_nil_inv iter Hiter).
  - split; [done|]. intros H. rewrite H, (iter_empty iter Hiter) in E. done.
Qed.

Lemma minimize_fold_reduced S a l acc :
  let r := foldl (λ minimal_lhs b,
             let candidate := minimal_lhs ∖ {[b]} in
             if bool_decide (a ∈ closure (mkFDSet S) candidate)
             then minimal_lhs ∖ {[b]} else minimal_lhs) acc l in
  r ⊆ acc ∧ ∀ b, b ∈ l → b ∈ r → a ∉ closure (mkFDSet S) (r ∖ {[b]}).
Proof.
  revert acc. induction l as [|b0 l IH]; intros acc; simpl.
  - split; [done|]. by intros b ?%elem_of_nil.
  - case_bool_decide as E.
    + destruct (IH (acc ∖ {[b0]})) as [Hsub Hall]. split; [set_solver|].
      intros b [->|Hb]%elem_of_cons Hr; [set_solver|by apply Hall].
    + destruct (IH acc) as [Hsub Hall]. split; [done|].
      intros b [->|Hb]%elem_of_cons Hr; [|by apply Hall].
      intros Hc. apply E. revert Hc. apply closure_mono. set_solver.
Qed.

Lemma minimize_fold_id S a l acc :
  (∀ b, b ∈ l → a ∉ closure (mkFDSet S) (acc ∖ {[b]})) →
  foldl (λ minimal_lhs b,
           let candidate := minimal_lhs ∖ {[b]} in
           if bool_decide (a ∈ closure (mkFDSet S) candidate)
           then minimal_lhs ∖ {[b]} else minimal_lhs) acc l = acc.
Proof.
  induction l as [|b0 l IH]; intros H; simpl; [done|].
  rewrite bool_decide_eq_false_2 by apply H, list_elem_of_here.
  apply IH. intros b Hb. by apply H, list_elem_of_further.
Qed.

(** What step 2 returns for an elementary FD with right side [{a}]. *)
Lemma minimize_lhs_reduced S fd a m :
  rhs fd = {[a]} → minimize_lhs iter S fd = Some m →
  rhs m = frozenset_str a ∧ lhs m ⊆ lhs fd ∧
  ∀ b, b ∈ lhs m → a ∉ closure (mkFDSet S) (lhs m ∖ {[b]}).
Proof.
  intros Hr. unfold minimize_lhs. rewrite Hr, (iter_singleton iter Hiter).
  intros [= <-]. cbn [lhs rhs]. split; [done|].
  destruct (minimize_fold_reduced S a (iter (lhs fd)) (lhs fd)) as [Hsub Hall].
  split; [done|]. intros b Hb. apply Hall; [|done].
  apply (iter_elem iter Hiter). by apply Hsub.
Qed.

Lemma minimize_lhs_id S fd a :
  one_char a → rhs fd = {[a]} →
  (∀ b, b ∈ lhs fd → a ∉ closure (mkFDSet S) (lhs fd ∖ {[b]})) →
  minimize_lhs iter S fd = Some fd.
Proof.
  intros Ha Hr H. unfold minimize_lhs. rewrite Hr, (iter_singleton iter Hiter).
  rewrite minimize_fold_id.
  - rewrite (frozenset_str_one_char a Ha), <- Hr. by destruct fd.
  - intros b Hb. by apply H, (iter_elem iter Hiter).
Qed.

(** [canonical_cover] raises exactly when an empty-string attribute is on
    some right side. *)
Lemma canonical_cover_None F :
  canonical_cover iter F = None ↔ ∃ fd, fd ∈ fds F ∧ "" ∈ rhs fd.
Proof.
  unfold canonical_cover. cbv zeta.
  destruct (mapM _ _) as [M|] eqn:E; cbn.
  - split; [done|]. intros (fd & Hfd & Ha). exfalso.
    apply mapM_Some_1 in E.
    assert (mkFD (lhs fd) (frozenset_str "") ∈ fds (singleton_rhs iter F)) as Hin.
    { apply (elem_of_singleton_rhs iter Hiter). by exists fd, "". }
    destruct (Forall2_elem_of_l _ _ _ _ E Hin) as (m & _ & Hm).
    assert (minimize_lhs iter (fds (singleton_rhs iter F))
              (mkFD (lhs fd) (frozenset_str "")) = None) as Hn
      by by apply minimize_lhs_None.
    congruence.
  - split; [|done]. intros _. apply mapM_None_1, Exists_exists in E.
    destruct E as (fd' & Hfd' & Hn). apply minimize_lhs_None in Hn.
    apply (elem_of_singleton_rhs iter Hiter) in Hfd' as (fd & a & Hfd & Ha & ->).
    cbn [rhs] in Hn. apply frozenset_str_empty in Hn as ->. by exists fd.
Qed.

Section OneChar.

Variable F : FDSet.
Hypothesis Hone : ∀ fd a, fd ∈ fds F → a ∈ rhs fd → one_char a.
Variable cover : FDSet.
Hypothesis Hcover : canonical_cover iter F = Some cover.

Lemma cover_closure X : closure cover X = closure F X.
Proof.
  destruct (canonical_cover_equivalent iter Hiter F Hone) as (c & Hc & Heq).
  assert (c = cover) as -> by congruence. by apply equivalent_closure.
Qed.

Lemma singleton_closure X : closure (singleton_rhs iter F) X = closure F X.
Proof.
  symmetry. apply equivalent_closure. by apply singleton_rhs_equivalent.
Qed.

Lemma cover_members fd :
  fd ∈ fds cover →
  ∃ a fd0, one_char a ∧ rhs fd = {[a]} ∧ fd0 ∈ fds F ∧ a ∈ rhs fd0 ∧
           lhs fd ⊆ lhs fd0 ∧
           ∀ b, b ∈ lhs fd → a ∉ closure F (lhs fd ∖ {[b]}).
Proof.
  unfold canonical_cover in Hcover. cbv zeta in Hcover.
  destruct (mapM _ _) as [M|] eqn:E; [|done]. cbn in Hcover.
  injection Hcover as <-. cbn [fds]. intros Hfd.
  eapply elem_of_sublist in Hfd; [|apply remove_redundant_sublist].
  rewrite elem_of_dedup_fds in Hfd. apply mapM_Some_1 in E.
  destruct (Forall2_elem_of_r _ _ _ _ E Hfd) as (fd' & Hfd' & Hmin).
  apply (elem_of_singleton_rhs iter Hiter) in Hfd' as Hsrc.
  destruct Hsrc as (fd0 & a & Hfd0 & Ha & ->).
  assert (one_char a) as Hc by by eapply Hone.
  destruct (minimize_lhs_reduced _ (mkFD (lhs fd0) (frozenset_str a)) a fd
              (frozenset_str_one_char a Hc) Hmin) as (Hr & Hl & Hred).
  exists a, fd0. rewrite (frozenset_str_one_char a Hc) in Hr.
  split_and!; [done..|]. intros b Hb.
  rewrite <- singleton_closure. by apply Hred.
Qed.

Lemma cover_NoDup : NoDup (fds cover).
Proof.
  unfold canonical_cover in Hcover. cbv zeta in Hcover.
  destruct (mapM _ _) as [M|] eqn:E; [|done]. cbn in Hcover.
  injection Hcover as <-. cbn [fds].
  eapply sublist_NoDup; [apply dedup_fds_NoDup|apply remove_redundant_sublist].
Qed.

Lemma cover_nonredundant p fd q :
  fds cover = p ++ fd :: q → implies (mkFDSet (p ++ q)) fd = false.
Proof.
  unfold canonical_cover in Hcover. cbv zeta in Hcover.
  destruct (mapM _ _) as [M|] eqn:E; [|done]. cbn in Hcover.
  injection Hcover as <-. cbn [fds]. apply remove_redundant_quiet.
Qed.

Lemma cover_idempotent : canonical_cover iter cover = Some cover.
Proof.
  assert (singleton_rhs iter cover = cover) as Hs.
  { rewrite <- (FDSet_eta cover) at 1 2. apply singleton_rhs_fixed. intros fd Hfd.
    destruct (cover_members fd Hfd) as (a & _ & Ha & Hr & _). by exists a. }
  unfold canonical_cover. cbv zeta. rewrite Hs.
  rewrite (mapM_Some_2 _ _ (fds cover)).
  - cbn -[remove_redundant dedup_fds]. rewrite (dedup_fds_id _ cover_NoDup).
    rewrite remove_redundant_id by apply cover_nonredundant. by rewrite FDSet_eta.
  - apply Forall2_same_length_lookup. split; [done|].
    intros i x y Hx Hy. assert (x = y) as <- by congruence.
    destruct (cover_members x) as (a & _ & Ha & Hr & _ & _ & _ & Hred).
    { by eapply list_elem_of_lookup_2. }
    apply (minimize_lhs_id _ _ a Ha Hr). intros b Hb.
    rewrite FDSet_eta, cover_closure. by apply Hred.
Qed.

End OneChar.

End CoverSteps.

(** ** Structure of the candidate keys *)

Lemma closure_nil X : closure (mkFDSet []) X = X.
Proof. reflexivity. Qed.

(** Attributes that are on no left side do not help to derive others. *)
Lemma closure_drop_unused_set F K Z :
  Z ## all_left F → closure F K ∖ Z ⊆ closure F (K ∖ Z).
Proof.
  intros Hdis.
  assert (closure F K ⊆ closure F (K ∖ Z) ∪ Z) as Hsub; [|set_solver].
  apply closure_least.
  - intros fd Hfd Hsub.
    assert (lhs fd ⊆ all_left F).
    { intros x Hx. apply elem_of_all_left. by exists fd. }
    pose proof (closure_closed F (K ∖ Z) fd Hfd). set_solver.
  - pose proof (closure_extensive F (K ∖ Z)).
    intros y Hy. destruct (decide (y ∈ Z)); set_solver.
Qed.

(** Every superkey contains a superkey from which no single attribute can
    be removed. *)
Lemma minimal_superkey_exists F U X :
  closure F X = U →
  ∃ K, K ⊆ X ∧ closure F K = U ∧ ∀ a, a ∈ K → closure F (K ∖ {[a]}) ≠ U.
Proof.
  remember (size X) as n eqn:Hn. revert X Hn.
  induction n as [n IH] using lt_wf_ind. intros X -> HX.
  destruct (decide (Exists (λ a, closure F (X ∖ {[a]}) = U) (elements X)))
    as [Hex|Hno].
  - apply Exists_exists in Hex as (a & Ha%elem_of_elements & Hc).
    destruct (IH (size (X ∖ {[a]}))) with (X := X ∖ {[a]}) as (K & HK & ? & ?);
      [|done..|].
    + apply subset_size. set_solver.
    + exists K. split_and!; [set_solver|done..].
  - exists X. split_and!; [done..|]. intros a Ha Hc. apply Hno.
    apply Exists_exists. exists a. by rewrite elem_of_elements.
Qed.

Lemma flat_map_nil {A B} (f : A → list B) (l : list A) :
  flat_map f l = [] ↔ ∀ x, x ∈ l → f x = [].
Proof.
  induction l as [|a l IH]; simpl.
  - split; [|done]. by intros _ x ?%elem_of_nil.
  - split.
    + intros [H1 H2]%app_eq_nil x [->|Hx]%elem_of_cons; [done|by apply IH].
    + intros H. rewrite (H a), (proj2 IH); [done| |apply list_elem_of_here].
      intros x Hx. by apply H, list_elem_of_further.
Qed.

Lemma not_superkey_false_iff keys fd :
  not_superkey keys fd = false ↔ ∃ key, key ∈ keys ∧ key ⊆ lhs fd.
Proof.
  split.
  - intros H. destruct (decide (Exists (λ key, key ⊆ lhs fd) keys)) as [Hex|Hno].
    + by apply Exists_exists in Hex.
    + rewrite not_superkey_true in H; [done|].
      intros key Hk Hsub. apply Hno, Exists_exists. by exists key.
  - intros (key & Hk & Hsub). by eapply not_superkey_false.
Qed.

Lemma first_partial_nil iter prime fd keys :
  first_partial iter prime fd keys = [] ↔
  ∀ key, key ∈ keys → partial_on prime fd key = false.
Proof.
  induction keys as [|key keys IH]; simpl.
  - split; [|done]. by intros _ key ?%elem_of_nil.
  - destruct (partial_on prime fd key) eqn:E.
    + split; [done|]. intros H. specialize (H key (list_elem_of_here _ _)). congruence.
    + rewrite IH. split.
      * intros H k [->|Hk]%elem_of_cons; [done|by apply H].
      * intros H k Hk. by apply H, list_elem_of_further.
Qed.

Lemma lossless_spec iter rs fragments :
  is_lossless_decomposition iter rs fragments = true ↔
  ∃ fragment key,
    fragment ∈ fragments ∧ key ∈ candidate_keys iter rs ∧ key ⊆ fragment.
Proof.
  unfold is_lossless_decomposition. rewrite existsb_exists.
  setoid_rewrite existsb_exists. setoid_rewrite bool_decide_eq_true.
  setoid_rewrite <- list_elem_of_In. naive_solver.
Qed.

Section KeyFacts.

Variable iter : gset string → list string.
Hypothesis Hiter : IterOrder iter.
Variable rs : RelationSchema.

Lemma key_within_universe K : K ∈ candidate_keys iter rs → K ⊆ attributes rs.
Proof.
  intros [<- _]%(candidate_keys_sound iter Hiter). apply closure_extensive.
Qed.

Lemma keys_antichain K1 K2 :
  K1 ∈ candidate_keys iter rs → K2 ∈ candidate_keys iter rs → K1 ⊆ K2 → K1 = K2.
Proof.
  intros [H1 _]%(candidate_keys_sound iter Hiter)
         [H2 Hmin]%(candidate_keys_sound iter Hiter) Hsub.
  apply set_eq. intros x. split; [apply Hsub|]. intros Hx.
  destruct (decide (x ∈ K1)) as [|Hn]; [done|]. exfalso.
  apply (Hmin x Hx). apply set_eq. intros y. split.
  - rewrite <- H2. apply closure_mono. set_solver.
  - rewrite <- H1. apply closure_mono. set_solver.
Qed.

Lemma key_structure K :
  K ∈ candidate_keys iter rs →
  all_left (fd_set rs) ∖ all_right (fd_set rs) ⊆ K ∧
  attributes rs ∖ (all_left (fd_set rs) ∪ all_right (fd_set rs)) ⊆ K ∧
  K ∩ (all_right (fd_set rs) ∖ all_left (fd_set rs)) = ∅.
Proof.
  intros (subset & Hsub & -> & _)%(elem_of_candidate_keys iter Hiter).
  assert (∀ x, x ∈ subset → x ∈ all_left (fd_set rs) ∩ all_right (fd_set rs)) as Hin.
  { intros x Hx. apply (iter_elem iter Hiter). by eapply elem_of_sublist. }
  split_and!; [set_solver..|].
  apply set_eq. intros x. split; [|set_solver].
  rewrite elem_of_intersection, !elem_of_union, elem_of_list_to_set.
  intros [[[?|Hx%Hin]|?] ?]; set_solver.
Qed.

Lemma candidate_keys_no_fds U :
  candidate_keys iter (mkRS U (mkFDSet [])) = [U].
Proof.
  unfold candidate_keys. cbn [attributes fd_set all_left all_right fds foldl].
  assert ((∅ : gset string) ∩ ∅ = ∅) as -> by set_solver.
  assert ((∅ : gset string) ∖ ∅ = ∅) as -> by set_solver.
  rewrite (iter_empty iter Hiter), size_empty. cbn [seq flat_map combinations app].
  assert ((∅ : gset string) ∪ list_to_set [] ∪ U ∖ (∅ ∪ ∅) = U) as -> by set_solver.
  rewrite (proj2 (is_key_spec iter Hiter (mkRS U (mkFDSet [])) U)); [done|].
  cbn [attributes fd_set]. split; [apply closure_nil|].
  intros a Ha. rewrite closure_nil. set_solver.
Qed.

Section Invariant.

Let U := attributes rs.
Let F := fd_set rs.
Hypothesis Hwf : ∀ fd, fd ∈ fds F → lhs fd ⊆ U ∧ rhs fd ⊆ U.

Lemma closure_within_universe X : X ⊆ U → closure F X ⊆ U.
Proof. apply closure_least. intros fd Hfd _. by apply Hwf. Qed.

Lemma superkey_has_key X :
  U ⊆ closure F X → ∃ K, K ∈ candidate_keys iter rs ∧ K ⊆ X.
Proof.
  intros HX.
  assert (closure F (X ∩ U) = U) as Hc.
  { apply set_eq. intros x. split.
    - apply closure_within_universe. set_solver.
    - intros Hx. replace (X ∩ U) with (X ∖ (X ∖ U))
        by (apply set_eq; intros y; destruct (decide (y ∈ U)); set_solver).
      apply closure_drop_unused_set.
      + intros y Hy (fd & Hfd & Hl)%elem_of_all_left.
        destruct (Hwf fd Hfd) as [HlU _]. set_solver.
      + set_solver. }
  destruct (minimal_superkey_exists F U (X ∩ U) Hc) as (K & HK & HKc & HKm).
  exists K. split; [|set_solver].
  apply (candidate_keys_complete iter Hiter rs Hwf); [set_solver|done..].
Qed.

Lemma candidate_keys_nonempty : candidate_keys iter rs ≠ [].
Proof.
  destruct (superkey_has_key U) as (K & HK & _); [apply closure_extensive|].
  intros E. rewrite E in HK. by apply elem_of_nil in HK.
Qed.

Lemma lossless_superkey fragments :
  is_lossless_decomposition iter rs fragments = true ↔
  ∃ fragment, fragment ∈ fragments ∧ U ⊆ closure F fragment.
Proof.
  rewrite lossless_spec. split.
  - intros (fragment & key & Hf & Hk & Hsub). exists fragment. split; [done|].
    apply (candidate_keys_sound iter Hiter) in Hk as [Hk _].
    unfold U, F. rewrite <- Hk. by apply closure_mono.
  - intros (fragment & Hf & Hsup).
    destruct (superkey_has_key fragment Hsup) as (K & HK & Hsub). by exists fragment, K.
Qed.

End Invariant.

End KeyFacts.

(** ** When the judges report nothing *)

Section JudgeFacts.

Variable iter : gset string → list string.
Hypothesis Hiter : IterOrder iter.
Variable rs : RelationSchema.

Lemma judge_BCNF_nil keys :
  judge_BCNF iter rs keys = [] ↔
  ∀ fd, fd ∈ fds (singleton_rhs iter (fd_set rs)) →
        ∃ key, key ∈ keys ∧ key ⊆ lhs fd.
Proof.
  unfold judge_BCNF. rewrite flat_map_nil. apply forall_proper. intros fd.
  apply forall_proper. intros _. rewrite <- not_superkey_false_iff.
  by destruct (not_superkey keys fd).
Qed.

Lemma judge_3NF_nil keys :
  judge_3NF iter rs keys = [] ↔
  ∀ fd, fd ∈ fds (singleton_rhs iter (fd_set rs)) →
        (∃ key, key ∈ keys ∧ key ⊆ lhs fd) ∨ rhs fd ⊆ prime_attrs keys.
Proof.
  unfold judge_3NF. rewrite flat_map_nil. apply forall_proper. intros fd.
  apply forall_proper. intros _. rewrite <- not_superkey_false_iff.
  destruct (not_superkey keys fd); case_bool_decide; simpl; naive_solver.
Qed.

Lemma judge_2NF_nil keys :
  judge_2NF iter rs keys = [] ↔
  ∀ fd key, fd ∈ fds (singleton_rhs iter (fd_set rs)) → key ∈ keys →
            partial_on (prime_attrs keys) fd key = false.
Proof.
  unfold judge_2NF. rewrite flat_map_nil.
  setoid_rewrite first_partial_nil. naive_solver.
Qed.

Lemma judge_BCNF_3NF keys :
  judge_BCNF iter rs keys = [] → judge_3NF iter rs keys = [].
Proof. rewrite judge_BCNF_nil, judge_3NF_nil. naive_solver. Qed.

Lemma judge_3NF_2NF :
  judge_3NF iter rs (candidate_keys iter rs) = [] →
  judge_2NF iter rs (candidate_keys iter rs) = [].
Proof.
  rewrite judge_3NF_nil, judge_2NF_nil. intros H fd key Hfd Hkey.
  unfold partial_on.
  destruct (H fd Hfd) as [(key0 & Hk0 & Hsub)|Hprime].
  - case_bool_decide as E1; [|done]. case_bool_decide as E2; [done|].
    exfalso. apply E2. apply set_eq. intros x. split; [apply E1|].
    rewrite <- (keys_antichain iter Hiter rs key0 key Hk0 Hkey) by set_solver.
    apply Hsub.
  - rewrite (bool_decide_eq_true_2 _ Hprime). by rewrite andb_false_r.
Qed.

Lemma judge_NF_BCNF :
  (judge_NF iter rs).1 = "BCNF" ↔
  judge_BCNF iter rs (candidate_keys iter rs) = [].
Proof.
  unfold judge_NF. cbv zeta. split.
  - destruct (judge_2NF _ _ _); [|done]. destruct (judge_3NF _ _ _); [|done].
    by destruct (judge_BCNF _ _ _).
  - intros HB. pose proof (judge_BCNF_3NF _ HB) as H3.
    pose proof (judge_3NF_2NF H3) as H2. by rewrite H2, H3, HB.
Qed.

Lemma judge_NF_3NF :
  (judge_NF iter rs).1 = "3NF" ∨ (judge_NF iter rs).1 = "BCNF" ↔
  judge_3NF iter rs (candidate_keys iter rs) = [].
Proof.
  unfold judge_NF. cbv zeta. split.
  - destruct (judge_2NF _ _ _); [|by intros [?|?]].
    destruct (judge_3NF _ _ _); [done|by intros [?|?]].
  - intros H3. pose proof (judge_3NF_2NF H3) as H2. rewrite H2, H3. simpl.
    destruct (judge_BCNF _ _ _); simpl; auto.
Qed.

Lemma judge_NF_violations :
  (judge_NF iter rs).2 = [] ↔ (judge_NF iter rs).1 = "BCNF".
Proof.
  unfold judge_NF. cbv zeta.
  destruct (judge_2NF _ _ _); [|done]. destruct (judge_3NF _ _ _); [|done].
  by destruct (judge_BCNF _ _ _).
Qed.

Lemma judge_NF_levels :
  (judge_NF iter rs).1 ∈ ["1NF"; "2NF"; "3NF"; "BCNF"].
Proof.
  unfold judge_NF. cbv zeta.
  destruct (judge_2NF _ _ _); [|set_solver]. destruct (judge_3NF _ _ _); [|set_solver].
  destruct (judge_BCNF _ _ _); set_solver.
Qed.

Lemma atomic_lhs (P : gset string → Prop) :
  (∀ fd, fd ∈ fds (singleton_rhs iter (fd_set rs)) → P (lhs fd)) ↔
  (∀ fd, fd ∈ fds (fd_set rs) → rhs fd ≠ ∅ → P (lhs fd)).
Proof.
  split.
  - intros H fd Hfd [a Ha]%set_choose_L.
    apply (H (mkFD (lhs fd) (frozenset_str a))).
    apply (elem_of_singleton_rhs iter Hiter). by exists fd, a.
  - intros H fd' (fd & a & Hfd & Ha & ->)%(elem_of_singleton_rhs iter Hiter).
    cbn [lhs]. apply H; [done|set_solver].
Qed.

Section Invariant.

Hypothesis Hwf : ∀ fd, fd ∈ fds (fd_set rs) →
                       lhs fd ⊆ attributes rs ∧ rhs fd ⊆ attributes rs.

Lemma has_key_iff_superkey X :
  X ⊆ attributes rs →
  (∃ key, key ∈ candidate_keys iter rs ∧ key ⊆ X) ↔
  closure (fd_set rs) X = attributes rs.
Proof.
  intros HX. split.
  - intros (key & Hk & Hsub). apply set_eq. intros x. split.
    + by apply (closure_within_universe rs Hwf).
    + apply (candidate_keys_sound iter Hiter) in Hk as [Hk _].
      rewrite <- Hk. by apply closure_mono.
  - intros Hc. apply (superkey_has_key iter Hiter rs Hwf). by rewrite Hc.
Qed.

Lemma BCNF_semantic :
  judge_NF iter rs = ("BCNF", []) ↔
  ∀ fd, fd ∈ fds (fd_set rs) → rhs fd ≠ ∅ →
        closure (fd_set rs) (lhs fd) = attributes rs.
Proof.
  transitivity ((judge_NF iter rs).1 = "BCNF").
  { split; [by intros ->|]. intros H. pose proof (proj2 judge_NF_violations H).
    by destruct (judge_NF iter rs) as [??]; simplify_eq/=. }
  rewrite judge_NF_BCNF, judge_BCNF_nil.
  rewrite (atomic_lhs (λ X, ∃ key, key ∈ candidate_keys iter rs ∧ key ⊆ X)).
  apply forall_proper. intros fd. apply forall_proper. intros Hfd.
  apply forall_proper. intros _. apply has_key_iff_superkey. by apply Hwf.
Qed.

Lemma third_NF_semantic :
  (∀ fd a, fd ∈ fds (fd_set rs) → a ∈ rhs fd → one_char a) →
  (judge_NF iter rs).1 = "3NF" ∨ (judge_NF iter rs).1 = "BCNF" ↔
  ∀ fd a, fd ∈ fds (fd_set rs) → a ∈ rhs fd →
          closure (fd_set rs) (lhs fd) = attributes rs ∨
          ∃ key, key ∈ candidate_keys iter rs ∧ a ∈ key.
Proof.
  intros Hone. rewrite judge_NF_3NF, judge_3NF_nil. split.
  - intros H fd a Hfd Ha.
    destruct (H (mkFD (lhs fd) (frozenset_str a))) as [Hk|Hp].
    + apply (elem_of_singleton_rhs iter Hiter). by exists fd, a.
    + left. apply has_key_iff_superkey; [by apply Hwf|done].
    + right. apply elem_of_prime_attrs. apply Hp. cbn [rhs].
      rewrite (frozenset_str_one_char a) by by eapply Hone. set_solver.
  - intros H fd' (fd & a & Hfd & Ha & ->)%(elem_of_singleton_rhs iter Hiter).
    cbn [lhs rhs]. destruct (H fd a Hfd Ha) as [Hc|Hk].
    + left. apply has_key_iff_superkey; [by apply Hwf|done].
    + right. rewrite (frozenset_str_one_char a) by by eapply Hone.
      apply elem_of_prime_attrs in Hk. set_solver.
Qed.

End Invariant.

End JudgeFacts.

(** *** Strings *)

Lemma str_app_cons c (s t : string) : String c s +:+ t = String c (s +:+ t).
Proof. reflexivity. Qed.

Lemma str_app_nil_r (a : string) : a +:+ "" = a.
Proof. induction a as [|x a IH]; [done|]. by rewrite str_app_cons, IH. Qed.

Lemma arrow_rest_Some s r : arrow_rest s = Some r ↔ s = "->" +:+ r.
Proof.
  change ("->" +:+ r) with (String "-" (String ">" r)).
  destruct s as [|c [|d s]]; simpl; [done..|].
  destruct (Ascii.eqb_spec c "-") as [->|Hc]; simpl.
  - destruct (Ascii.eqb_spec d ">") as [->|Hd]; simpl.
    + split; by intros [= ->].
    + split; [done|]. by intros [= ? ?].
  - split; [done|]. by intros [= ? ?].
Qed.

Lemma arrow_rest_cons_None c s :
  arrow_rest (String c s) = None ↔ c ≠ "-"%char ∨ ∀ r, s ≠ String ">" r.
Proof.
  destruct s as [|d s]; simpl; [naive_solver|].
  destruct (Ascii.eqb_spec c "-") as [->|Hc]; simpl; [|naive_solver].
  destruct (Ascii.eqb_spec d ">") as [->|Hd]; simpl; naive_solver.
Qed.

Lemma split_arrow_cons c s :
  arrow_rest (String c s) = None →
  split_arrow (String c s) =
    match split_arrow s with Some (l, r) => Some (String c l, r) | None => None end.
Proof. intros H. cbn [split_arrow]. by rewrite H. Qed.

Lemma split_arrow_here r : split_arrow ("->" +:+ r) = Some ("", r).
Proof. reflexivity. Qed.

Lemma split_arrow_found p q : split_arrow (p +:+ "->" +:+ q) ≠ None.
Proof.
  induction p as [|c p IH]; [done|]. rewrite str_app_cons.
  destruct (arrow_rest (String c (p +:+ "->" +:+ q))) eqn:E.
  - cbn [split_arrow]. by rewrite E.
  - rewrite split_arrow_cons by done. by destruct (split_arrow _) as [[??]|].
Qed.

Lemma split_arrow_Some_1 s l r :
  split_arrow s = Some (l, r) → s = l +:+ "->" +:+ r ∧ split_arrow l = None.
Proof.
  revert l. induction s as [|c s IH]; intros l; [done|].
  destruct (arrow_rest (String c s)) as [r0|] eqn:E.
  - cbn [split_arrow]. rewrite E. intros [= <- <-].
    by apply arrow_rest_Some in E.
  - rewrite split_arrow_cons by done.
    destruct (split_arrow s) as [[l' r']|] eqn:Es; [|done].
    intros [= <- <-]. destruct (IH l' eq_refl) as [-> Hl']. split; [done|].
    assert (arrow_rest (String c l') = None) as E'.
    { apply arrow_rest_cons_None. apply arrow_rest_cons_None in E as [?|E]; [by left|].
      right. intros x ->. by apply (E (x +:+ "->" +:+ r')). }
    by rewrite split_arrow_cons, Hl'.
Qed.

Lemma split_arrow_Some_2 l r :
  split_arrow l = None → split_arrow (l +:+ "->" +:+ r) = Some (l, r).
Proof.
  induction l as [|c l IH]; [done|]. intros H. rewrite str_app_cons.
  assert (arrow_rest (String c l) = None) as E.
  { cbn [split_arrow] in H. by destruct (arrow_rest (String c l)). }
  rewrite split_arrow_cons in H by done.
  assert (split_arrow l = None) as Hl by by destruct (split_arrow l) as [[??]|].
  assert (arrow_rest (String c (l +:+ "->" +:+ r)) = None) as E'.
  { apply arrow_rest_cons_None. apply arrow_rest_cons_None in E as [?|E]; [by left|].
    destruct l as [|d l]; [right; by intros x [=]|].
    right. intros x [= -> _]. by apply (E l). }
  by rewrite split_arrow_cons, IH.
Qed.

Lemma split_arrow_None s :
  split_arrow s = None ↔ ∀ p q, s ≠ p +:+ "->" +:+ q.
Proof.
  split.
  - intros H p q ->. by apply (split_arrow_found p q).
  - intros H. destruct (split_arrow s) as [[l r]|] eqn:E; [|done].
    apply split_arrow_Some_1 in E as [-> _]. by destruct (H l r).
Qed.

(** *** Whitespace *)

Lemma is_space_not_dash c : is_space c = true → Ascii.eqb c "-" = false.
Proof. destruct (Ascii.eqb_spec c "-") as [->|]; [by vm_compute|done]. Qed.

Lemma is_space_not_gt c : is_space c = true → Ascii.eqb c ">" = false.
Proof. destruct (Ascii.eqb_spec c ">") as [->|]; [by vm_compute|done]. Qed.

Lemma arrow_rest_space c s : is_space c = true → arrow_rest (String c s) = None.
Proof.
  intros H. destruct s as [|d s]; simpl; [done|]. by rewrite is_space_not_dash.
Qed.

Lemma split_arrow_space_l ws l :
  all_space ws = true → split_arrow l = None → split_arrow (ws +:+ l) = None.
Proof.
  induction ws as [|c ws IH]; [done|]. cbn [all_space].
  intros [Hc Hws]%andb_true_iff Hl. rewrite str_app_cons.
  rewrite split_arrow_cons by by apply arrow_rest_space. by rewrite IH.
Qed.

Lemma split_arrow_space_r ws l :
  all_space ws = true → split_arrow l = None → split_arrow (l +:+ ws) = None.
Proof.
  intros Hws. induction l as [|c l IH]; intros Hl.
  - change (split_arrow ws = None). rewrite <- (str_app_nil_r ws).
    by apply split_arrow_space_l.
  - assert (arrow_rest (String c l) = None) as E.
    { cbn [split_arrow] in Hl. by destruct (arrow_rest (String c l)). }
    rewrite split_arrow_cons in Hl by done.
    assert (split_arrow l = None) as Hl' by by destruct (split_arrow l) as [[??]|].
    rewrite str_app_cons.
    assert (arrow_rest (String c (l +:+ ws)) = None) as E'.
    { apply arrow_rest_cons_None. apply arrow_rest_cons_None in E as [?|E]; [by left|].
      right. destruct l as [|d l]; [|intros x [= -> _]; by apply (E l)].
      destruct ws as [|w ws]; [by intros x [=]|]. intros x [= -> _].
      simpl in Hws. discriminate. }
    by rewrite split_arrow_cons, IH.
Qed.

Lemma lstrip_space ws s : all_space ws = true → lstrip (ws +:+ s) = lstrip s.
Proof.
  induction ws as [|c ws IH]; [done|]. rewrite str_app_cons. cbn [all_space lstrip].
  intros [-> Hws]%andb_true_iff. by apply IH.
Qed.

Lemma rstrip_all_space ws : all_space ws = true → rstrip ws = "".
Proof.
  induction ws as [|c ws IH]; [done|]. simpl.
  intros [-> Hws]%andb_true_iff. by rewrite IH.
Qed.

Lemma rstrip_space s ws : all_space ws = true → rstrip (s +:+ ws) = rstrip s.
Proof.
  intros Hws. induction s as [|c s IH].
  - by apply rstrip_all_space.
  - rewrite str_app_cons. cbn [rstrip]. by rewrite IH.
Qed.

Lemma strip_pad ws1 s ws2 :
  all_space ws1 = true → all_space ws2 = true →
  strip (ws1 +:+ s +:+ ws2) = strip s.
Proof.
  intros H1 H2. unfold strip. rewrite lstrip_space by done.
  induction s as [|c s IH].
  - change (rstrip (lstrip ws2) = rstrip (lstrip "")).
    rewrite <- (str_app_nil_r ws2), lstrip_space by done. done.
  - rewrite str_app_cons. cbn [lstrip]. destruct (is_space c); [done|].
    by rewrite <- str_app_cons, rstrip_space.
Qed.

(** *** The loop *)

Lemma str_chars_one_char s x : x ∈ str_chars s → one_char x.
Proof.
  induction s as [|c s IH]; simpl; [by intros ?%elem_of_nil|].
  intros [->|?]%elem_of_cons; [done|by apply IH].
Qed.

Lemma frozenset_str_chars s x : x ∈ frozenset_str s → one_char x.
Proof.
  unfold frozenset_str. rewrite elem_of_list_to_set. apply str_chars_one_char.
Qed.

Lemma parse_fd_Ok s fd :
  parse_fd s = Ok fd ↔
  ∃ l r, split_arrow s = Some (l, r) ∧ strip l ≠ "" ∧
         fd = mkFD (frozenset_str (strip l)) (frozenset_str (strip r)).
Proof.
  unfold parse_fd. destruct (split_arrow s) as [[l r]|]; [|naive_solver].
  cbv zeta. case_bool_decide as E.
  - apply frozenset_str_empty in E. naive_solver.
  - rewrite frozenset_str_empty in E. naive_solver.
Qed.

Lemma parse_fds_Ok strs acc out :
  parse_fds strs acc = Ok out ↔
  ∃ new, out = acc ++ new ∧ Forall2 (λ s fd, parse_fd s = Ok fd) strs new.
Proof.
  revert acc. induction strs as [|s strs IH]; intros acc; simpl.
  - split.
    + intros [= <-]. exists []. by rewrite app_nil_r.
    + intros (new & -> & ->%Forall2_nil_inv_l). by rewrite app_nil_r.
  - destruct (parse_fd s) as [fd|m] eqn:E.
    + rewrite IH. split.
      * intros (new & -> & H). exists (fd :: new).
        split; [by rewrite <- app_assoc|by constructor].
      * intros (new & -> & H). apply Forall2_cons_inv_l in H as (fd' & new' & ? & ? & ->).
        exists new'. split; [|done]. rewrite <- app_assoc. simpl. congruence.
    + split; [done|]. intros (new & _ & H).
      apply Forall2_cons_inv_l in H as (? & ? & ? & _). congruence.
Qed.

Lemma parse_fds_error pre s post acc m :
  Forall (λ x, ∃ fd, parse_fd x = Ok fd) pre →
  parse_fd s = ValueError m →
  parse_fds (pre ++ s :: post) acc = ValueError m.
Proof.
  intros Hpre Hs. revert acc. induction Hpre as [|x pre [fd Hx] _ IH]; intros acc; simpl.
  - by rewrite Hs.
  - rewrite Hx. apply IH.
Qed.

Lemma from_str_Ok attrs strs rs :
  from_str attrs strs = Ok rs ↔
  attributes rs = frozenset_str attrs ∧
  Forall2 (λ s fd, parse_fd s = Ok fd) strs (fds (fd_set rs)).
Proof.
  unfold from_str. cbv zeta. destruct (parse_fds strs []) as [out|m] eqn:E.
  - apply parse_fds_Ok in E as (new & -> & H). simpl. split.
    + by intros [= <-].
    + intros [Ha H']. destruct rs as [U [l]]. simpl in *. subst U.
      do 3 f_equal. revert l H'.
      induction H as [|s fd strs new Hs _ IH]; intros l H'.
      * by apply Forall2_nil_inv_l in H'.
      * apply Forall2_cons_inv_l in H' as (fd' & l' & ? & ? & ->).
        f_equal; [congruence|by apply IH].
  - split; [done|]. intros [_ H]. exfalso.
    assert (parse_fds strs [] = Ok ([] ++ fds (fd_set rs))) as E'
      by (apply parse_fds_Ok; by eexists).
    congruence.
Qed.

(** ** Elementary decomposition and canonical cover *)

(** X9: On right sides made of one-character attributes [singleton_rhs()]
    yields FDs with a one-attribute right side, changes nothing when
    applied again, and its result is [==] to [F]. *)
Theorem singleton_rhs_one_char (iter : gset string → list string) (F : FDSet) :
  IterOrder iter →
  (∀ fd a, fd ∈ fds F → a ∈ rhs fd → one_char a) →
  (∀ fd, fd ∈ fds (singleton_rhs iter F) → ∃ a, rhs fd = {[a]}) ∧
  singleton_rhs iter (singleton_rhs iter F) = singleton_rhs iter F ∧
  FDSet_eq (singleton_rhs iter F) F = true.
Proof.
  intros Hiter Hone. split_and!.
  - intros fd Hfd. destruct (singleton_rhs_shape iter Hiter F Hone fd Hfd) as (a & _ & ?).
    by exists a.
  - rewrite <- (FDSet_eta (singleton_rhs iter F)) at 1 2.
    apply (singleton_rhs_fixed iter Hiter). intros fd Hfd.
    by apply (singleton_rhs_shape iter Hiter F Hone).
  - apply FDSet_eq_spec, equivalent_sym. by apply singleton_rhs_equivalent.
Qed.

(** X11: [canonical_cover()] raises exactly when the empty string is an
    attribute of some right side. *)
Theorem canonical_cover_raises_iff (iter : gset string → list string) (F : FDSet) :
  IterOrder iter →
  canonical_cover iter F = None ↔ ∃ fd, fd ∈ fds F ∧ "" ∈ rhs fd.
Proof. intros Hiter. by apply canonical_cover_None. Qed.

(** X12: The FDs of a canonical cover are pairwise different; each has a
    one-attribute right side taken from an FD of [F] and a left side
    inside that FD's left side. *)
Theorem canonical_cover_shape
    (iter : gset string → list string) (F cover : FDSet) :
  IterOrder iter →
  (∀ fd a, fd ∈ fds F → a ∈ rhs fd → one_char a) →
  canonical_cover iter F = Some cover →
  NoDup (fds cover) ∧
  ∀ fd, fd ∈ fds cover →
        ∃ a fd0, rhs fd = {[a]} ∧ fd0 ∈ fds F ∧ a ∈ rhs fd0 ∧ lhs fd ⊆ lhs fd0.
Proof.
  intros Hiter Hone Hc. split; [by eapply cover_NoDup|].
  intros fd Hfd.
  destruct (cover_members iter Hiter F Hone cover Hc fd Hfd)
    as (a & fd0 & _ & ? & ? & ? & ? & _).
  by exists a, fd0.
Qed.

(** X13: No left side of a canonical cover has an extraneous attribute:
    without any one of them the right side is no longer in the closure
    under [F]. *)
Theorem canonical_cover_left_reduced
    (iter : gset string → list string) (F cover : FDSet) :
  IterOrder iter →
  (∀ fd a, fd ∈ fds F → a ∈ rhs fd → one_char a) →
  canonical_cover iter F = Some cover →
  ∀ fd a b, fd ∈ fds cover → a ∈ rhs fd → b ∈ lhs fd →
            a ∉ closure F (lhs fd ∖ {[b]}).
Proof.
  intros Hiter Hone Hc fd a b Hfd Ha Hb.
  destruct (cover_members iter Hiter F Hone cover Hc fd Hfd)
    as (a' & _ & _ & Hr & _ & _ & _ & Hred).
  rewrite Hr in Ha. apply elem_of_singleton in Ha as ->. by apply Hred.
Qed.

(** X14: No FD of a canonical cover is implied by the other FDs of the
    cover. *)
Theorem canonical_cover_nonredundant
    (iter : gset string → list string) (F cover : FDSet) :
  canonical_cover iter F = Some cover →
  ∀ p fd q, fds cover = p ++ fd :: q → implies (mkFDSet (p ++ q)) fd = false.
Proof.
  unfold canonical_cover. cbv zeta. destruct (mapM _ _) as [M|]; [|done].
  cbn -[remove_redundant dedup_fds]. intros [= <-]. cbn [fds].
  apply remove_redundant_quiet.
Qed.

(** X15: A canonical cover is its own canonical cover. *)
Theorem canonical_cover_idempotent
    (iter : gset string → list string) (F cover : FDSet) :
  IterOrder iter →
  (∀ fd a, fd ∈ fds F → a ∈ rhs fd → one_char a) →
  canonical_cover iter F = Some cover →
  canonical_cover iter cover = Some cover.
Proof. intros Hiter Hone Hc. by eapply cover_idempotent. Qed.

(** ** Candidate keys *)

(** X16: Every candidate key lies inside the attribute universe, contains the
    left-only and the isolated attributes and no right-only attribute. *)
Theorem candidate_key_structure
    (iter : gset string → list string) (rs : RelationSchema) (K : gset string) :
  IterOrder iter →
  K ∈ candidate_keys iter rs →
  K ⊆ attributes rs ∧
  all_left (fd_set rs) ∖ all_right (fd_set rs) ⊆ K ∧
  attributes rs ∖ (all_left (fd_set rs) ∪ all_right (fd_set rs)) ⊆ K ∧
  K ∩ (all_right (fd_set rs) ∖ all_left (fd_set rs)) = ∅.
Proof.
  intros Hiter HK. split; [by eapply key_within_universe|].
  by apply (key_structure iter Hiter).
Qed.

(** X17: No candidate key contains another one. *)
Theorem candidate_keys_antichain
    (iter : gset string → list string) (rs : RelationSchema) (K1 K2 : gset string) :
  IterOrder iter →
  K1 ∈ candidate_keys iter rs → K2 ∈ candidate_keys iter rs →
  K1 ⊆ K2 → K1 = K2.
Proof. intros Hiter. by apply keys_antichain. Qed.

(** X18: Without FDs the only candidate key is the whole universe. *)
Theorem candidate_keys_without_fds
    (iter : gset string → list string) (U : gset string) :
  IterOrder iter →
  candidate_keys iter (mkRS U (mkFDSet [])) = [U].
Proof. intros Hiter. by apply candidate_keys_no_fds. Qed.

(** X19: When the FDs mention attributes of the universe only, every attribute
    set whose closure covers the universe contains a candidate key, and
    the list of candidate keys is not empty. *)
Theorem superkey_contains_candidate_key
    (iter : gset string → list string) (rs : RelationSchema) :
  IterOrder iter →
  (∀ fd, fd ∈ fds (fd_set rs) → lhs fd ⊆ attributes rs ∧ rhs fd ⊆ attributes rs) →
  (∀ X, attributes rs ⊆ closure (fd_set rs) X →
        ∃ K, K ∈ candidate_keys iter rs ∧ K ⊆ X) ∧
  candidate_keys iter rs ≠ [].
Proof.
  intros Hiter Hwf. split.
  - by apply superkey_has_key.
  - by apply candidate_keys_nonempty.
Qed.

(** X20: The schema is not validated: when an FD whose left side is inside the
    universe has a right-side attribute outside it, [candidate_keys()]
    returns the empty list. *)
Theorem candidate_keys_need_closed_universe
    (iter : gset string → list string) (rs : RelationSchema) (fd : FD) :
  IterOrder iter →
  fd ∈ fds (fd_set rs) → lhs fd ⊆ attributes rs → rhs fd ⊈ attributes rs →
  candidate_keys iter rs = [].
Proof.
  intros Hiter Hfd Hl Hr.
  destruct (candidate_keys iter rs) as [|K l] eqn:E; [done|]. exfalso.
  assert (K ∈ candidate_keys iter rs) as HK by (rewrite E; apply list_elem_of_here).
  apply (candidate_keys_sound iter Hiter) in HK as [HK _].
  apply Hr. rewrite <- HK. apply (closure_closed _ K fd Hfd). by rewrite HK.
Qed.

(** X21: When the FDs mention attributes of the universe only,
    [is_lossless_decomposition] is [True] exactly when the closure of some
    fragment covers the universe. *)
Theorem lossless_iff_superkey_fragment
    (iter : gset string → list string) (rs : RelationSchema)
    (fragments : list (gset string)) :
  IterOrder iter →
  (∀ fd, fd ∈ fds (fd_set rs) → lhs fd ⊆ attributes rs ∧ rhs fd ⊆ attributes rs) →
  is_lossless_decomposition iter rs fragments = true ↔
  ∃ fragment, fragment ∈ fragments ∧ attributes rs ⊆ closure (fd_set rs) fragment.
Proof. intros Hiter Hwf. by apply lossless_superkey. Qed.

(** ** Normal forms *)

(** X22: The judges are nested: without BCNF violations there are no 3NF
    violations, and, on the candidate keys, without 3NF violations there
    are no 2NF violations. *)
Theorem judges_nested (iter : gset string → list string) (rs : RelationSchema) :
  IterOrder iter →
  (∀ keys, judge_BCNF iter rs keys = [] → judge_3NF iter rs keys = []) ∧
  (judge_3NF iter rs (candidate_keys iter rs) = [] →
   judge_2NF iter rs (candidate_keys iter rs) = []).
Proof.
  intros Hiter. split.
  - intros keys. by apply judge_BCNF_3NF.
  - by apply judge_3NF_2NF.
Qed.

(** X23: [judge_NF()] returns one of the four levels; its violation list is
    empty exactly at level "BCNF", which is returned exactly when the BCNF
    judge reports nothing. *)
Theorem judge_NF_level (iter : gset string → list string) (rs : RelationSchema) :
  IterOrder iter →
  (judge_NF iter rs).1 ∈ ["1NF"; "2NF"; "3NF"; "BCNF"] ∧
  ((judge_NF iter rs).2 = [] ↔ (judge_NF iter rs).1 = "BCNF") ∧
  ((judge_NF iter rs).1 = "BCNF" ↔
   judge_BCNF iter rs (candidate_keys iter rs) = []).
Proof.
  intros Hiter. split_and!.
  - by apply judge_NF_levels.
  - by apply judge_NF_violations.
  - by apply judge_NF_BCNF.
Qed.

(** X24: When the FDs mention attributes of the universe only, [judge_NF()]
    returns ("BCNF", []) exactly when the left side of every FD with a
    non-empty right side is a superkey; FDs with [rhs ⊆ lhs] are not
    exempted. *)
Theorem judge_NF_BCNF_iff (iter : gset string → list string) (rs : RelationSchema) :
  IterOrder iter →
  (∀ fd, fd ∈ fds (fd_set rs) → lhs fd ⊆ attributes rs ∧ rhs fd ⊆ attributes rs) →
  judge_NF iter rs = ("BCNF", []) ↔
  ∀ fd, fd ∈ fds (fd_set rs) → rhs fd ≠ ∅ →
        closure (fd_set rs) (lhs fd) = attributes rs.
Proof. intros Hiter Hwf. by apply BCNF_semantic. Qed.

(** X25: Under the same invariant and with one-character attributes,
    [judge_NF()] returns "3NF" or "BCNF" exactly when, for every FD and
    every attribute of its right side, the left side is a superkey or the
    attribute belongs to a candidate key. *)
Theorem judge_NF_3NF_iff (iter : gset string → list string) (rs : RelationSchema) :
  IterOrder iter →
  (∀ fd, fd ∈ fds (fd_set rs) → lhs fd ⊆ attributes rs ∧ rhs fd ⊆ attributes rs) →
  (∀ fd a, fd ∈ fds (fd_set rs) → a ∈ rhs fd → one_char a) →
  (judge_NF iter rs).1 = "3NF" ∨ (judge_NF iter rs).1 = "BCNF" ↔
  ∀ fd a, fd ∈ fds (fd_set rs) → a ∈ rhs fd →
          closure (fd_set rs) (lhs fd) = attributes rs ∨
          ∃ key, key ∈ candidate_keys iter rs ∧ a ∈ key.
Proof. intros Hiter Hwf Hone. by apply third_NF_semantic. Qed.

(** ** from_str *)

Lemma lstrip_all_space ws : all_space ws = true → lstrip ws = "".
Proof.
  intros H. change (lstrip ws = lstrip ""). rewrite <- (str_app_nil_r ws).
  by apply lstrip_space.
Qed.

Lemma all_space_no_arrow ws : all_space ws = true → split_arrow ws = None.
Proof.
  intros H. rewrite <- (str_app_nil_r ws). by apply split_arrow_space_l.
Qed.

Lemma str_app_assoc (a b c : string) : (a +:+ b) +:+ c = a +:+ (b +:+ c).
Proof.
  induction a as [|x a IH]; [done|]. rewrite !str_app_cons. by f_equal.
Qed.

(** X26: [from_str] stops at the first malformed entry: [ValueError] "Invalid FD
    format" when it holds no "->", "Empty left-hand side" when only
    whitespace precedes its first "->". *)
Theorem from_str_errors (attrs : string) (pre post : list string) (s : string) :
  Forall (λ x, ∃ fd, parse_fd x = Ok fd) pre →
  ((∀ p q, s ≠ p +:+ "->" +:+ q) →
   from_str attrs (pre ++ s :: post)
     = ValueError ("Invalid FD format (missing '->'): '" +:+ s +:+ "'")) ∧
  (∀ l r, s = l +:+ "->" +:+ r → all_space l = true →
   from_str attrs (pre ++ s :: post)
     = ValueError ("Empty left-hand side in FD: '" +:+ s +:+ "'")).
Proof.
  intros Hpre. split.
  - intros Hno%split_arrow_None. unfold from_str. cbv zeta.
    erewrite (parse_fds_error pre s post [] _ Hpre); [done|].
    unfold parse_fd. by rewrite Hno.
  - intros l r -> Hl. unfold from_str. cbv zeta.
    erewrite (parse_fds_error pre _ post [] _ Hpre); [done|].
    unfold parse_fd. rewrite split_arrow_Some_2 by by apply all_space_no_arrow.
    cbv zeta. unfold strip. rewrite lstrip_all_space by done.
    by rewrite bool_decide_eq_true_2.
Qed.

(** X27: [from_str] returns a schema exactly when every entry is
    [l + "->" + r] with no "->" in [l] and [l] not blank; the attribute
    set is the characters of [attributes] and the FDs are, in order, the
    characters of [l.strip()] and of [r.strip()]. *)
Theorem from_str_accepts (attrs : string) (strs : list string) (rs : RelationSchema) :
  from_str attrs strs = Ok rs ↔
  attributes rs = frozenset_str attrs ∧
  Forall2 (λ s fd, ∃ l r,
             s = l +:+ "->" +:+ r ∧ (∀ p q, l ≠ p +:+ "->" +:+ q) ∧
             strip l ≠ "" ∧
             fd = mkFD (frozenset_str (strip l)) (frozenset_str (strip r)))
          strs (fds (fd_set rs)).
Proof.
  rewrite from_str_Ok. apply and_iff_compat_l.
  split; intros HF; (eapply Forall2_impl; [exact HF|]); intros s fd.
  - intros (l & r & [-> Hl]%split_arrow_Some_1 & Hne & ->)%parse_fd_Ok.
    exists l, r. split_and!; [done| |done..]. by apply split_arrow_None.
  - intros (l & r & -> & Hl%split_arrow_None & Hne & ->). apply parse_fd_Ok.
    exists l, r. split_and!; [by apply split_arrow_Some_2|done..].
Qed.

(** X28: A schema built by [from_str] has one FD per entry, only
    one-character attributes, and no FD with an empty left side. *)
Theorem from_str_invariants (attrs : string) (strs : list string) (rs : RelationSchema) :
  from_str attrs strs = Ok rs →
  length (fds (fd_set rs)) = length strs ∧
  (∀ a, a ∈ attributes rs → one_char a) ∧
  ∀ fd, fd ∈ fds (fd_set rs) →
        lhs fd ≠ ∅ ∧ ∀ a, a ∈ lhs fd ∪ rhs fd → one_char a.
Proof.
  intros [Ha H]%from_str_Ok. split_and!.
  - symmetry. by eapply Forall2_length.
  - rewrite Ha. apply frozenset_str_chars.
  - intros fd Hfd. destruct (Forall2_elem_of_r _ _ _ _ H Hfd) as (s & _ & Hs).
    apply parse_fd_Ok in Hs as (l & r & _ & Hne & ->). cbn [lhs rhs]. split.
    + by rewrite frozenset_str_empty.
    + intros a [?|?]%elem_of_union; by eapply frozenset_str_chars.
Qed.

(** X29: On a schema built by [from_str], [canonical_cover()] returns and its
    result is [==] to the FD set of the schema. *)
Theorem from_str_canonical_cover
    (iter : gset string → list string) (attrs : string) (strs : list string)
    (rs : RelationSchema) :
  IterOrder iter →
  from_str attrs strs = Ok rs →
  ∃ cover, canonical_cover iter (fd_set rs) = Some cover ∧
           FDSet_eq cover (fd_set rs) = true.
Proof.
  intros Hiter [_ H]%from_str_Ok.
  destruct (canonical_cover_equivalent iter Hiter (fd_set rs)) as (cover & Hc & Heq).
  - intros fd a Hfd Ha. destruct (Forall2_elem_of_r _ _ _ _ H Hfd) as (s & _ & Hs).
    apply parse_fd_Ok in Hs as (l & r & _ & _ & ->). by eapply frozenset_str_chars.
  - exists cover. split; [done|]. by apply FDSet_eq_spec.
Qed.

(** X30: Whitespace at both ends of an entry and around its first "->" does
    not change the parsed FD. *)
Theorem parse_fd_ignores_whitespace (ws1 ws2 ws3 ws4 l r : string) :
  all_space ws1 = true → all_space ws2 = true →
  all_space ws3 = true → all_space ws4 = true →
  (∀ p q, l ≠ p +:+ "->" +:+ q) →
  fd_of (parse_fd ((ws1 +:+ l +:+ ws2) +:+ "->" +:+ (ws3 +:+ r +:+ ws4)))
  = fd_of (parse_fd (l +:+ "->" +:+ r)).
Proof.
  intros H1 H2 H3 H4 Hl%split_arrow_None. unfold parse_fd.
  rewrite !split_arrow_Some_2; [|done|].
  - cbv zeta. rewrite !strip_pad by done. by case_bool_decide.
  - apply split_arrow_space_l; [done|]. by apply split_arrow_space_r.
Qed.

(** * Instances at concrete inputs *)

(** The scenarios of the test-suite, run with [elements] as the
    iteration order. *)

Example scenario_A :
  closure (mkFDSet [A_B; mkFD {["B"]} {["C"]}]) {["A"]} = {["A"; "B"; "C"]}.
Proof. by vm_compute. Qed.

Example scenario_C :
  judge_NF elements
    (mkRS {["A"; "B"; "C"]} (mkFDSet [mkFD {["A"; "B"]} {["C"]}; mkFD {["C"]} {["A"]}]))
  = ("3NF", ["Violation: C -> A violates BCNF"]).
Proof. by vm_compute. Qed.

Example scenario_D :
  let rs := mkRS {["A"; "B"; "C"; "D"]} (mkFDSet [A_B; mkFD {["B"]} {["C"]}]) in
  is_lossless_decomposition elements rs [{["A"; "B"]}; {["A"; "C"; "D"]}] = true ∧
  is_lossless_decomposition elements rs [{["A"; "B"]}; {["C"; "D"]}] = false.
Proof. by vm_compute. Qed.

Example scenario_E :
  candidate_keys elements (mkRS {["A"; "B"; "C"]} (mkFDSet [])) = [{["A"; "B"; "C"]}].
Proof. by vm_compute. Qed.

(** An empty-string attribute on a right side: its elementary FD has an
    empty right side and [next(iter(fd.rhs))] raises. *)
Example canonical_cover_raises :
  canonical_cover elements (mkFDSet [mkFD {["A"]} {[""]}]) = None.
Proof. by vm_compute. Qed.

Example partial_dependency :
  judge_NF elements
    (mkRS {["A"; "B"; "C"; "D"]} (mkFDSet [mkFD {["A"]} {["C"]}; mkFD {["C"]} {["D"]}]))
  = ("1NF", ["Violation: A -> C is a partial dependency on candidate key AB"]).
Proof. by vm_compute. Qed.

Lemma closure_empty_lhs_witness :
  mkFD ∅ {["Z"]} ∈ fds (mkFDSet [A_B; mkFD ∅ {["Z"]}]) ∧
  closure_loop 3 (mkFDSet [A_B; mkFD ∅ {["Z"]}]) {["A"]}
    = Some (closure (mkFDSet [A_B; mkFD ∅ {["Z"]}]) {["A"]}) ∧
  ({["Z"]} : gset string) ⊆ closure (mkFDSet [A_B; mkFD ∅ {["Z"]}]) {["A"]}.
Proof.
  assert (mkFD ∅ {["Z"]} ∈ fds (mkFDSet [A_B; mkFD ∅ {["Z"]}])) as H by by_compute.
  split; [exact H|].
  exact (closure_empty_lhs (mkFDSet [A_B; mkFD ∅ {["Z"]}]) {["Z"]} {["A"]} H).
Defined.

Lemma candidate_keys_minimal_superkeys_witness :
  IterOrder elements ∧
  ({["A"; "C"]} : gset string) ∈ candidate_keys elements scenario_B ∧
  closure (fd_set scenario_B) {["A"; "C"]} = attributes scenario_B ∧
  ∀ a, a ∈ ({["A"; "C"]} : gset string) →
       closure (fd_set scenario_B) ({["A"; "C"]} ∖ {[a]}) ≠ attributes scenario_B.
Proof.
  assert (IterOrder elements) as Ho by (intros s; reflexivity).
  assert (({["A"; "C"]} : gset string) ∈ candidate_keys elements scenario_B)
    as Hk by by_compute.
  split; [exact Ho|]. split; [exact Hk|].
  exact (candidate_keys_minimal_superkeys elements scenario_B {["A"; "C"]} Ho Hk).
Defined.

Lemma candidate_keys_complete_distinct_witness :
  IterOrder elements ∧
  (∀ fd, fd ∈ fds (fd_set scenario_B) →
         lhs fd ⊆ attributes scenario_B ∧ rhs fd ⊆ attributes scenario_B) ∧
  (∀ K, K ⊆ attributes scenario_B →
        closure (fd_set scenario_B) K = attributes scenario_B →
        (∀ K', K' ⊂ K → closure (fd_set scenario_B) K' ≠ attributes scenario_B) →
        K ∈ candidate_keys elements scenario_B ∧
        K ∩ (all_right (fd_set scenario_B) ∖ all_left (fd_set scenario_B)) = ∅) ∧
  NoDup (candidate_keys elements scenario_B).
Proof.
  assert (IterOrder elements) as Ho by (intros s; reflexivity).
  assert (∀ fd, fd ∈ fds (fd_set scenario_B) →
            lhs fd ⊆ attributes scenario_B ∧ rhs fd ⊆ attributes scenario_B) as Hwf.
  { apply Forall_forall. by_compute. }
  split; [exact Ho|]. split; [exact Hwf|].
  exact (candidate_keys_complete_distinct elements scenario_B Ho Hwf).
Defined.

Lemma lossless_iff_fragment_has_key_witness :
  is_lossless_decomposition elements
    (mkRS {["A"; "B"; "C"; "D"]} (mkFDSet [A_B; mkFD {["B"]} {["C"]}]))
    [{["A"; "B"]}; {["A"; "C"; "D"]}] = true ∧
  ∃ fragment key,
    fragment ∈ [({["A"; "B"]} : gset string); {["A"; "C"; "D"]}] ∧
    key ∈ candidate_keys elements
            (mkRS {["A"; "B"; "C"; "D"]} (mkFDSet [A_B; mkFD {["B"]} {["C"]}])) ∧
    key ⊆ fragment.
Proof.
  assert (is_lossless_decomposition elements
    (mkRS {["A"; "B"; "C"; "D"]} (mkFDSet [A_B; mkFD {["B"]} {["C"]}]))
    [{["A"; "B"]}; {["A"; "C"; "D"]}] = true) as H by (vm_compute; reflexivity).
  split; [exact H|].
  exact (proj1 (lossless_iff_fragment_has_key elements _ _) H).
Defined.

Lemma judge_NF_stages_witness :
  judge_NF elements scenario_B
    = ("3NF", judge_BCNF elements scenario_B (candidate_keys elements scenario_B)).
Proof.
  apply (judge_NF_stages elements scenario_B); vm_compute; [reflexivity..|discriminate].
Defined.

Lemma empty_rhs_vanishes_witness :
  IterOrder elements ∧
  singleton_rhs elements (mkFDSet [A_B; mkFD {["B"]} ∅; D_A])
    = singleton_rhs elements (drop_empty_rhs (mkFDSet [A_B; mkFD {["B"]} ∅; D_A])).
Proof.
  assert (IterOrder elements) as Ho by (intros s; reflexivity).
  split; [exact Ho|].
  exact (proj1 (proj2 (empty_rhs_vanishes elements
                         (mkFDSet [A_B; mkFD {["B"]} ∅; D_A]) Ho))).
Defined.

Lemma scenario_B_is_3NF_witness :
  IterOrder elements ∧
  (judge_NF elements scenario_B).1 = "3NF" ∧
  1 ≤ length (judge_NF elements scenario_B).2.
Proof.
  assert (IterOrder elements) as Ho by (intros s; reflexivity).
  split; [exact Ho|]. exact (scenario_B_is_3NF elements Ho).
Defined.

Lemma canonical_cover_multi_char_witness :
  IterOrder elements ∧
  canonical_cover elements F_multi = Some (mkFDSet [mkFD {["A"]} {["B"]}]) ∧
  FDSet_eq (mkFDSet [mkFD {["A"]} {["B"]}]) F_multi = false.
Proof.
  assert (IterOrder elements) as Ho by (intros s; reflexivity).
  split; [exact Ho|]. exact (canonical_cover_multi_char elements Ho).
Defined.

Lemma closure_monotone_witness :
  ({["A"]} : gset string) ⊆ {["A"; "C"]} ∧
  closure (fd_set scenario_B) {["A"]} ⊆ closure (fd_set scenario_B) {["A"; "C"]}.
Proof.
  assert (({["A"]} : gset string) ⊆ {["A"; "C"]}) as H by by_compute.
  split; [exact H|]. exact (closure_monotone (fd_set scenario_B) _ _ H).
Defined.

Lemma closure_depends_on_fd_members_witness :
  fds cover_redundant ⊆ fds F_redundant ∧
  closure cover_redundant {["A"]} ⊆ closure F_redundant {["A"]} ∧
  (fds F_redundant ⊆ fds cover_redundant →
   closure cover_redundant {["A"]} = closure F_redundant {["A"]}).
Proof.
  assert (fds cover_redundant ⊆ fds F_redundant) as H.
  { intros fd Hfd. revert fd Hfd. apply Forall_forall. by_compute. }
  split; [exact H|].
  exact (closure_depends_on_fd_members cover_redundant F_redundant {["A"]} H).
Defined.

Lemma canonical_cover_one_char_witness :
  IterOrder elements ∧
  (∀ fd a, fd ∈ fds F_redundant → a ∈ rhs fd → one_char a) ∧
  ∃ cover, canonical_cover elements F_redundant = Some cover ∧
           FDSet_eq cover F_redundant = true.
Proof.
  assert (IterOrder elements) as Ho by iter_elements.
  assert (∀ fd a, fd ∈ fds F_redundant → a ∈ rhs fd → one_char a) as H1
    by one_char_compute (fds F_redundant).
  split; [exact Ho|]. split; [exact H1|].
  exact (canonical_cover_one_char elements F_redundant Ho H1).
Defined.

Lemma singleton_rhs_one_char_witness :
  IterOrder elements ∧
  (∀ fd a, fd ∈ fds F_redundant → a ∈ rhs fd → one_char a) ∧
  (∀ fd, fd ∈ fds (singleton_rhs elements F_redundant) → ∃ a, rhs fd = {[a]}) ∧
  singleton_rhs elements (singleton_rhs elements F_redundant)
    = singleton_rhs elements F_redundant ∧
  FDSet_eq (singleton_rhs elements F_redundant) F_redundant = true.
Proof.
  assert (IterOrder elements) as Ho by iter_elements.
  assert (∀ fd a, fd ∈ fds F_redundant → a ∈ rhs fd → one_char a) as H1
    by one_char_compute (fds F_redundant).
  split; [exact Ho|]. split; [exact H1|].
  exact (singleton_rhs_one_char elements F_redundant Ho H1).
Defined.

Lemma canonical_cover_raises_iff_witness :
  IterOrder elements ∧
  (canonical_cover elements F_redundant = None ↔
   ∃ fd, fd ∈ fds F_redundant ∧ "" ∈ rhs fd).
Proof.
  assert (IterOrder elements) as Ho by iter_elements.
  split; [exact Ho|]. exact (canonical_cover_raises_iff elements F_redundant Ho).
Defined.

Lemma canonical_cover_shape_witness :
  IterOrder elements ∧
  (∀ fd a, fd ∈ fds F_redundant → a ∈ rhs fd → one_char a) ∧
  canonical_cover elements F_redundant = Some cover_redundant ∧
  NoDup (fds cover_redundant) ∧
  ∀ fd, fd ∈ fds cover_redundant →
        ∃ a fd0, rhs fd = {[a]} ∧ fd0 ∈ fds F_redundant ∧ a ∈ rhs fd0 ∧
                 lhs fd ⊆ lhs fd0.
Proof.
  assert (IterOrder elements) as Ho by iter_elements.
  assert (∀ fd a, fd ∈ fds F_redundant → a ∈ rhs fd → one_char a) as H1
    by one_char_compute (fds F_redundant).
  assert (canonical_cover elements F_redundant = Some cover_redundant) as Hc
    by (vm_compute; reflexivity).
  split; [exact Ho|]. split; [exact H1|]. split; [exact Hc|].
  exact (canonical_cover_shape elements F_redundant cover_redundant Ho H1 Hc).
Defined.

Lemma canonical_cover_left_reduced_witness :
  IterOrder elements ∧
  (∀ fd a, fd ∈ fds F_redundant → a ∈ rhs fd → one_char a) ∧
  canonical_cover elements F_redundant = Some cover_redundant ∧
  ∀ fd a b, fd ∈ fds cover_redundant → a ∈ rhs fd → b ∈ lhs fd →
            a ∉ closure F_redundant (lhs fd ∖ {[b]}).
Proof.
  assert (IterOrder elements) as Ho by iter_elements.
  assert (∀ fd a, fd ∈ fds F_redundant → a ∈ rhs fd → one_char a) as H1
    by one_char_compute (fds F_redundant).
  assert (canonical_cover elements F_redundant = Some cover_redundant) as Hc
    by (vm_compute; reflexivity).
  split; [exact Ho|]. split; [exact H1|]. split; [exact Hc|].
  exact (canonical_cover_left_reduced elements F_redundant cover_redundant Ho H1 Hc).
Defined.

Lemma canonical_cover_nonredundant_witness :
  canonical_cover elements F_redundant = Some cover_redundant ∧
  ∀ p fd q, fds cover_redundant = p ++ fd :: q →
            implies (mkFDSet (p ++ q)) fd = false.
Proof.
  assert (canonical_cover elements F_redundant = Some cover_redundant) as Hc
    by (vm_compute; reflexivity).
  split; [exact Hc|].
  exact (canonical_cover_nonredundant elements F_redundant cover_redundant Hc).
Defined.

Lemma canonical_cover_idempotent_witness :
  IterOrder elements ∧
  (∀ fd a, fd ∈ fds F_redundant → a ∈ rhs fd → one_char a) ∧
  canonical_cover elements F_redundant = Some cover_redundant ∧
  canonical_cover elements cover_redundant = Some cover_redundant.
Proof.
  assert (IterOrder elements) as Ho by iter_elements.
  assert (∀ fd a, fd ∈ fds F_redundant → a ∈ rhs fd → one_char a) as H1
    by one_char_compute (fds F_redundant).
  assert (canonical_cover elements F_redundant = Some cover_redundant) as Hc
    by (vm_compute; reflexivity).
  split; [exact Ho|]. split; [exact H1|]. split; [exact Hc|].
  exact (canonical_cover_idempotent elements F_redundant cover_redundant Ho H1 Hc).
Defined.

Lemma candidate_key_structure_witness :
  IterOrder elements ∧
  ({["B"; "C"]} : gset string) ∈ candidate_keys elements scenario_B ∧
  ({["B"; "C"]} : gset string) ⊆ attributes scenario_B ∧
  all_left (fd_set scenario_B) ∖ all_right (fd_set scenario_B) ⊆ {["B"; "C"]} ∧
  attributes scenario_B ∖ (all_left (fd_set scenario_B) ∪ all_right (fd_set scenario_B))
    ⊆ {["B"; "C"]} ∧
  {["B"; "C"]} ∩ (all_right (fd_set scenario_B) ∖ all_left (fd_set scenario_B)) = ∅.
Proof.
  assert (IterOrder elements) as Ho by iter_elements.
  assert (({["B"; "C"]} : gset string) ∈ candidate_keys elements scenario_B)
    as Hk by by_compute.
  split; [exact Ho|]. split; [exact Hk|].
  exact (candidate_key_structure elements scenario_B {["B"; "C"]} Ho Hk).
Defined.

Lemma candidate_keys_antichain_witness :
  IterOrder elements ∧
  ({["B"; "C"]} : gset string) ∈ candidate_keys elements scenario_B ∧
  ({["C"; "B"]} : gset string) ∈ candidate_keys elements scenario_B ∧
  ({["B"; "C"]} : gset string) ⊆ {["C"; "B"]} ∧
  ({["B"; "C"]} : gset string) = {["C"; "B"]}.
Proof.
  assert (IterOrder elements) as Ho by iter_elements.
  assert (({["B"; "C"]} : gset string) ∈ candidate_keys elements scenario_B)
    as H1 by by_compute.
  assert (({["C"; "B"]} : gset string) ∈ candidate_keys elements scenario_B)
    as H2 by by_compute.
  assert (({["B"; "C"]} : gset string) ⊆ {["C"; "B"]}) as H3 by by_compute.
  split; [exact Ho|]. split; [exact H1|]. split; [exact H2|]. split; [exact H3|].
  exact (candidate_keys_antichain elements scenario_B _ _ Ho H1 H2 H3).
Defined.

Lemma candidate_keys_without_fds_witness :
  IterOrder elements ∧
  candidate_keys elements (mkRS {["A"; "B"; "C"]} (mkFDSet [])) = [{["A"; "B"; "C"]}].
Proof.
  assert (IterOrder elements) as Ho by iter_elements.
  split; [exact Ho|]. exact (candidate_keys_without_fds elements {["A"; "B"; "C"]} Ho).
Defined.

Lemma superkey_contains_candidate_key_witness :
  IterOrder elements ∧
  (∀ fd, fd ∈ fds (fd_set scenario_B) →
         lhs fd ⊆ attributes scenario_B ∧ rhs fd ⊆ attributes scenario_B) ∧
  (∀ X, attributes scenario_B ⊆ closure (fd_set scenario_B) X →
        ∃ K, K ∈ candidate_keys elements scenario_B ∧ K ⊆ X) ∧
  candidate_keys elements scenario_B ≠ [].
Proof.
  assert (IterOrder elements) as Ho by iter_elements.
  assert (∀ fd, fd ∈ fds (fd_set scenario_B) →
            lhs fd ⊆ attributes scenario_B ∧ rhs fd ⊆ attributes scenario_B) as Hwf
    by wf_compute.
  split; [exact Ho|]. split; [exact Hwf|].
  exact (superkey_contains_candidate_key elements scenario_B Ho Hwf).
Defined.

Lemma candidate_keys_need_closed_universe_witness :
  IterOrder elements ∧
  mkFD {["A"]} {["C"]} ∈ fds (fd_set rs_open) ∧
  ({["A"]} : gset string) ⊆ attributes rs_open ∧
  ({["C"]} : gset string) ⊈ attributes rs_open ∧
  candidate_keys elements rs_open = [].
Proof.
  assert (IterOrder elements) as Ho by iter_elements.
  assert (mkFD {["A"]} {["C"]} ∈ fds (fd_set rs_open)) as H1 by by_compute.
  assert (({["A"]} : gset string) ⊆ attributes rs_open) as H2 by by_compute.
  assert (({["C"]} : gset string) ⊈ attributes rs_open) as H3 by by_compute.
  split; [exact Ho|]. split; [exact H1|]. split; [exact H2|]. split; [exact H3|].
  exact (candidate_keys_need_closed_universe elements rs_open _ Ho H1 H2 H3).
Defined.

Lemma lossless_iff_superkey_fragment_witness :
  IterOrder elements ∧
  (∀ fd, fd ∈ fds (fd_set scenario_B) →
         lhs fd ⊆ attributes scenario_B ∧ rhs fd ⊆ attributes scenario_B) ∧
  (is_lossless_decomposition elements scenario_B [{["A"; "B"]}; {["B"; "C"]}] = true ↔
   ∃ fragment, fragment ∈ [({["A"; "B"]} : gset string); {["B"; "C"]}] ∧
               attributes scenario_B ⊆ closure (fd_set scenario_B) fragment).
Proof.
  assert (IterOrder elements) as Ho by iter_elements.
  assert (∀ fd, fd ∈ fds (fd_set scenario_B) →
            lhs fd ⊆ attributes scenario_B ∧ rhs fd ⊆ attributes scenario_B) as Hwf
    by wf_compute.
  split; [exact Ho|]. split; [exact Hwf|].
  exact (lossless_iff_superkey_fragment elements scenario_B _ Ho Hwf).
Defined.

Lemma judges_nested_witness :
  IterOrder elements ∧
  (∀ keys, judge_BCNF elements scenario_B keys = [] →
           judge_3NF elements scenario_B keys = []) ∧
  (judge_3NF elements scenario_B (candidate_keys elements scenario_B) = [] →
   judge_2NF elements scenario_B (candidate_keys elements scenario_B) = []).
Proof.
  assert (IterOrder elements) as Ho by iter_elements.
  split; [exact Ho|]. exact (judges_nested elements scenario_B Ho).
Defined.

Lemma judge_NF_level_witness :
  IterOrder elements ∧
  (judge_NF elements scenario_B).1 ∈ ["1NF"; "2NF"; "3NF"; "BCNF"] ∧
  ((judge_NF elements scenario_B).2 = [] ↔ (judge_NF elements scenario_B).1 = "BCNF") ∧
  ((judge_NF elements scenario_B).1 = "BCNF" ↔
   judge_BCNF elements scenario_B (candidate_keys elements scenario_B) = []).
Proof.
  assert (IterOrder elements) as Ho by iter_elements.
  split; [exact Ho|]. exact (judge_NF_level elements scenario_B Ho).
Defined.

Lemma judge_NF_BCNF_iff_witness :
  IterOrder elements ∧
  (∀ fd, fd ∈ fds (fd_set scenario_B) →
         lhs fd ⊆ attributes scenario_B ∧ rhs fd ⊆ attributes scenario_B) ∧
  (judge_NF elements scenario_B = ("BCNF", []) ↔
   ∀ fd, fd ∈ fds (fd_set scenario_B) → rhs fd ≠ ∅ →
         closure (fd_set scenario_B) (lhs fd) = attributes scenario_B).
Proof.
  assert (IterOrder elements) as Ho by iter_elements.
  assert (∀ fd, fd ∈ fds (fd_set scenario_B) →
            lhs fd ⊆ attributes scenario_B ∧ rhs fd ⊆ attributes scenario_B) as Hwf
    by wf_compute.
  split; [exact Ho|]. split; [exact Hwf|].
  exact (judge_NF_BCNF_iff elements scenario_B Ho Hwf).
Defined.

Lemma judge_NF_3NF_iff_witness :
  IterOrder elements ∧
  (∀ fd, fd ∈ fds (fd_set scenario_B) →
         lhs fd ⊆ attributes scenario_B ∧ rhs fd ⊆ attributes scenario_B) ∧
  (∀ fd a, fd ∈ fds (fd_set scenario_B) → a ∈ rhs fd → one_char a) ∧
  ((judge_NF elements scenario_B).1 = "3NF" ∨ (judge_NF elements scenario_B).1 = "BCNF" ↔
   ∀ fd a, fd ∈ fds (fd_set scenario_B) → a ∈ rhs fd →
           closure (fd_set scenario_B) (lhs fd) = attributes scenario_B ∨
           ∃ key, key ∈ candidate_keys elements scenario_B ∧ a ∈ key).
Proof.
  assert (IterOrder elements) as Ho by iter_elements.
  assert (∀ fd, fd ∈ fds (fd_set scenario_B) →
            lhs fd ⊆ attributes scenario_B ∧ rhs fd ⊆ attributes scenario_B) as Hwf
    by wf_compute.
  assert (∀ fd a, fd ∈ fds (fd_set scenario_B) → a ∈ rhs fd → one_char a) as H1
    by one_char_compute (fds (fd_set scenario_B)).
  split; [exact Ho|]. split; [exact Hwf|]. split; [exact H1|].
  exact (judge_NF_3NF_iff elements scenario_B Ho Hwf H1).
Defined.

Lemma from_str_errors_witness :
  Forall (λ x, ∃ fd, parse_fd x = Ok fd) ["A->B"] ∧
  ((∀ p q, "BC" ≠ p +:+ "->" +:+ q) →
   from_str "ABCD" (["A->B"] ++ "BC" :: ["->A"])
     = ValueError ("Invalid FD format (missing '->'): '" +:+ "BC" +:+ "'")) ∧
  (∀ l r, "BC" = l +:+ "->" +:+ r → all_space l = true →
   from_str "ABCD" (["A->B"] ++ "BC" :: ["->A"])
     = ValueError ("Empty left-hand side in FD: '" +:+ "BC" +:+ "'")).
Proof.
  assert (Forall (λ x, ∃ fd, parse_fd x = Ok fd) ["A->B"]) as H.
  { repeat constructor. eexists. vm_compute. reflexivity. }
  split; [exact H|]. exact (from_str_errors "ABCD" ["A->B"] ["->A"] "BC" H).
Defined.

Lemma from_str_invariants_witness :
  from_str "ABCD" ["A->B"; "BC -> D"; " D->  A "] = Ok scenario_B ∧
  length (fds (fd_set scenario_B)) = 3 ∧
  (∀ a, a ∈ attributes scenario_B → one_char a) ∧
  ∀ fd, fd ∈ fds (fd_set scenario_B) →
        lhs fd ≠ ∅ ∧ ∀ a, a ∈ lhs fd ∪ rhs fd → one_char a.
Proof.
  assert (from_str "ABCD" ["A->B"; "BC -> D"; " D->  A "] = Ok scenario_B) as H
    by (vm_compute; reflexivity).
  split; [exact H|]. exact (from_str_invariants _ _ _ H).
Defined.

Lemma from_str_canonical_cover_witness :
  IterOrder elements ∧
  from_str "ABCD" ["A->B"; "BC -> D"; " D->  A "] = Ok scenario_B ∧
  ∃ cover, canonical_cover elements (fd_set scenario_B) = Some cover ∧
           FDSet_eq cover (fd_set scenario_B) = true.
Proof.
  assert (IterOrder elements) as Ho by iter_elements.
  assert (from_str "ABCD" ["A->B"; "BC -> D"; " D->  A "] = Ok scenario_B) as H
    by (vm_compute; reflexivity).
  split; [exact Ho|]. split; [exact H|].
  exact (from_str_canonical_cover elements _ _ _ Ho H).
Defined.

Lemma parse_fd_ignores_whitespace_witness :
  (∀ p q, "BC" ≠ p +:+ "->" +:+ q) ∧
  fd_of (parse_fd ((" " +:+ "BC" +:+ "  ") +:+ "->" +:+ (" " +:+ "D" +:+ " ")))
  = fd_of (parse_fd ("BC" +:+ "->" +:+ "D")).
Proof.
  assert (∀ p q, "BC" ≠ p +:+ "->" +:+ q) as H
    by (apply split_arrow_None; vm_compute; reflexivity).
  split; [exact H|].
  exact (parse_fd_ignores_whitespace " " "  " " " " " "BC" "D"
           eq_refl eq_refl eq_refl eq_refl H).
Defined.
